(** * distributed-task-queue: the queue engine, embedded and verified

    A shallow embedding of the Go sources

    - [internal/models/models.go]      (module [models])
    - [internal/ratelimit]             (module [ratelimit])
    - [internal/database/database.go]  (module [database])
    - [internal/worker/worker.go]      (module [worker])
    - [internal/api]                   (module [api])

    followed by the theorems that settle the claims C1..C10 of the
    specification against that code.

    Conventions.
    - A [time.Time] is an instant in nanoseconds since the Unix epoch ([Z]);
      every [time.Now()] of the source is an explicit argument of the
      function that makes the call, so the functions stay pure.
    - The store keeps a time as the text that the driver go-sqlite3
      writes for it, the wall clock reading followed by the zone offset,
      and SQLite compares two times as it compares these texts.  The zone
      offset in force at an instant and the order in which SQLite yields
      rows of equal sort key are not fixed by the code: they are the two
      fields of an [Environment], over which the functions that sort or
      compare times are defined.
    - Go's [int] is 64 bits wide; where the source does arithmetic on one
      the wrap-around is written out ([wrap64]).
    - The [jobs] table is the list of its rows in rowid order, that is in
      insertion order: the code never deletes a row.
    - A statement sent to SQLite either runs or fails in the driver; the
      embedding follows the run of a healthy store, and names the driver
      failure ([ErrDriver]) where a caller inspects the error. *)

From Stdlib Require Import ZArith String List Lia Bool.
From stdpp Require Import gmap strings list pretty sorting.

Open Scope string_scope.
Open Scope Z_scope.

(** ** Time and machine integers *)

Abbreviation Time := Z.
Abbreviation Duration := Z.

Definition Nanosecond : Duration := 1.
Definition Second : Duration := 1000000000 * Nanosecond.
Definition Minute : Duration := 60 * Second.

Definition minInt64 : Z := - 2 ^ 63.
Definition maxInt64 : Z := 2 ^ 63 - 1.

(** Two's complement reduction of an integer to 64 bits. *)
Definition wrap64 (x : Z) : Z := (x + 2 ^ 63) mod 2 ^ 64 - 2 ^ 63.

(** [t.Sub(u)]: the duration [t - u], saturated at the ends of [int64]. *)
Definition Sub (t u : Time) : Duration :=
  if maxInt64 <? t - u then maxInt64
  else if t - u <? minInt64 then minInt64
  else t - u.

(** [t.Add(d)]. *)
Definition Add (t : Time) (d : Duration) : Time := t + d.

(** [t.Unix()]: whole seconds since the epoch, rounded down. *)
Definition Unix (t : Time) : Z := t / Second.

(** [t.UnixNano()]. *)
Definition UnixNano (t : Time) : Z := t.

(** The zero [time.Time]: January 1, year 1, 00:00:00 UTC. *)
Definition zeroTime : Time := (-62135596800) * Second.

(** ** internal/models/models.go *)

Module models.

(** The status constants.  The column is a string in the source; every
    writer stores one of these four constants, see [status_string]. *)
Inductive StatusValue : Type :=
| StatusPending
| StatusRunning
| StatusDone
| StatusFailed.

Definition status_string (s : StatusValue) : string :=
  match s with
  | StatusPending => "pending"
  | StatusRunning => "running"
  | StatusDone => "done"
  | StatusFailed => "failed"
  end.

#[global] Instance StatusValue_eq_dec : EqDecision StatusValue.
Proof. solve_decision. Defined.

Record Job : Type := mkJob {
  ID : string;
  TenantID : string;
  Payload : string;
  Status : StatusValue;
  IdempotencyKey : string;
  RetryCount : Z;
  MaxRetries : Z;
  CreatedAt : Time;
  UpdatedAt : Time;
  LeasedUntil : option Time;
  ErrorMessage : string;
  TraceID : string
}.

Record Metrics : Type := mkMetrics {
  TotalJobs : Z;
  PendingJobs : Z;
  RunningJobs : Z;
  CompletedJobs : Z;
  FailedJobs : Z;
  DLQJobs : Z;
  TotalRetries : Z
}.

Record JobSubmitRequest : Type := mkJobSubmitRequest {
  req_TenantID : string;
  req_Payload : string;
  req_IdempotencyKey : string;
  req_MaxRetries : Z
}.

End models.

(** ** internal/ratelimit *)

Module ratelimit.

(** The two Go maps and the limit.  The mutex makes every [Allow] one
    indivisible step, which is how the function below treats it. *)
Record RateLimiter : Type := mkRateLimiter {
  tenantTokens : gmap string Z;
  tenantLastReset : gmap string Time;
  maxJobsPerMin : Z
}.

Definition New (maxJobsPerMin : Z) : RateLimiter :=
  {| tenantTokens := ∅; tenantLastReset := ∅; maxJobsPerMin := maxJobsPerMin |}.

(** Reading a Go map at a key it does not hold gives the zero value. *)
Definition tokens_of (rl : RateLimiter) (tenantID : string) : Z :=
  default 0 (tenantTokens rl !! tenantID).

(** The test of the first [if] of [Allow]. *)
Definition must_reset (rl : RateLimiter) (tenantID : string) (now : Time) : bool :=
  match tenantLastReset rl !! tenantID with
  | None => true
  | Some lastReset => Minute <? Sub now lastReset
  end.

Definition reset (rl : RateLimiter) (tenantID : string) (now : Time) : RateLimiter :=
  {| tenantTokens := <[tenantID := maxJobsPerMin rl]> (tenantTokens rl);
     tenantLastReset := <[tenantID := now]> (tenantLastReset rl);
     maxJobsPerMin := maxJobsPerMin rl |}.

Definition consume (rl : RateLimiter) (tenantID : string) : RateLimiter :=
  {| tenantTokens := <[tenantID := tokens_of rl tenantID - 1]> (tenantTokens rl);
     tenantLastReset := tenantLastReset rl;
     maxJobsPerMin := maxJobsPerMin rl |}.

(** [Allow]: [now] is the reading of [time.Now()]. *)
Definition Allow (rl : RateLimiter) (tenantID : string) (now : Time)
  : bool * RateLimiter :=
  let rl1 := if must_reset rl tenantID now then reset rl tenantID now else rl in
  if 0 <? tokens_of rl1 tenantID
  then (true, consume rl1 tenantID)
  else (false, rl1).

(** A run of calls, each a tenant and the time of the call, as the
    limiter sees them from all tenants; the answers given to [tenantID]
    come back in call order, with the limiter after the run. *)
Fixpoint answers_to (tenantID : string) (rl : RateLimiter)
    (calls : list (string * Time)) : list bool * RateLimiter :=
  match calls with
  | [] => ([], rl)
  | (caller, now) :: rest =>
      let '(ok, rl1) := Allow rl caller now in
      let '(oks, rl2) := answers_to tenantID rl1 rest in
      (if String.eqb caller tenantID then ok :: oks else oks, rl2)
  end.

(** The times at which one tenant called. *)
Fixpoint calls_of (tenantID : string) (calls : list (string * Time)) : list Time :=
  match calls with
  | [] => []
  | (caller, now) :: rest =>
      if String.eqb caller tenantID
      then now :: calls_of tenantID rest
      else calls_of tenantID rest
  end.

End ratelimit.

(** ** internal/database/database.go *)

Module database.
Export models.

(** The errors a caller of this package can be handed: [sql.ErrNoRows],
    a constraint the schema enforces, and any other failure of the
    driver. *)
Inductive error : Type :=
| ErrNoRows
| ErrConstraint (msg : string)
| ErrDriver (msg : string).

(** One row of the table [jobs] of [InitSchema].  The three columns
    without [NOT NULL] that the code leaves unset are options.  A time
    column is kept as the instant it denotes; how the store compares two
    of them is [text_ltb] below. *)
Record Row : Type := mkRow {
  id : string;
  tenant_id : string;
  payload : string;
  status : StatusValue;
  idempotency_key : option string;
  retry_count : Z;
  max_retries : Z;
  created_at : Time;
  updated_at : Time;
  leased_until : option Time;
  error_message : option string;
  trace_id : string
}.

#[global] Instance Row_eq_dec : EqDecision Row.
Proof. solve_decision. Defined.

Abbreviation DB := (list Row).

Definition nullString (s : string) : option string :=
  if String.eqb s EmptyString then None else Some s.

(** The row that [InsertJob] writes for a job.  [leased_until] and
    [error_message] are not among the inserted columns and start as
    NULL; an empty idempotency key is stored as NULL. *)
Definition inserted_row (job : Job) : Row :=
  {| id := ID job;
     tenant_id := TenantID job;
     payload := Payload job;
     status := Status job;
     idempotency_key := nullString (IdempotencyKey job);
     retry_count := RetryCount job;
     max_retries := MaxRetries job;
     created_at := CreatedAt job;
     updated_at := UpdatedAt job;
     leased_until := None;
     error_message := None;
     trace_id := TraceID job |}.

(** [id TEXT PRIMARY KEY]: the insert is refused when the id is taken. *)
Definition InsertJob (db : DB) (job : Job) : DB * option error :=
  if existsb (λ r, String.eqb (id r) (ID job)) db
  then (db, Some (ErrConstraint "UNIQUE constraint failed: jobs.id"))
  else ((db ++ [inserted_row job])%list, None).

(** The [Scan] of a full row into a [models.Job], as in [GetJobByID] and
    [scanJobs]: a NULL leaves the zero value of the field. *)
Definition scanJob (r : Row) : Job :=
  {| ID := id r;
     TenantID := tenant_id r;
     Payload := payload r;
     Status := status r;
     IdempotencyKey := default EmptyString (idempotency_key r);
     RetryCount := retry_count r;
     MaxRetries := max_retries r;
     CreatedAt := created_at r;
     UpdatedAt := updated_at r;
     LeasedUntil := leased_until r;
     ErrorMessage := default EmptyString (error_message r);
     TraceID := trace_id r |}.

Definition GetJobByID (db : DB) (jobID : string) : Job + error :=
  match find (λ r, String.eqb (id r) jobID) db with
  | Some r => inl (scanJob r)
  | None => inr ErrNoRows
  end.

(** [idempotency_key = ?] is never true of a NULL key. *)
Definition has_key (key : string) (r : Row) : bool :=
  match idempotency_key r with
  | Some k => String.eqb k key
  | None => false
  end.

Definition GetJobByIdempotencyKey (db : DB) (key : string) : Job + error :=
  match find (has_key key) db with
  | Some r => GetJobByID db (id r)
  | None => inr ErrNoRows
  end.

Definition count_where (p : Row → bool) (db : DB) : Z :=
  Z.of_nat (length (List.filter p db)).

Definition GetRunningJobsCount (db : DB) (tenantID : string) : Z :=
  count_where (λ r, String.eqb (tenant_id r) tenantID
                    && bool_decide (status r = StatusRunning)) db.

(** [UPDATE jobs SET ... WHERE id = ?]. *)
Definition update_where_id (set : Row → Row) (jobID : string) (db : DB) : DB :=
  (λ r, if String.eqb (id r) jobID then set r else r) <$> db.

Definition set_status (st : StatusValue) (now : Time) (errorMsg : option string)
    (r : Row) : Row :=
  {| id := id r;
     tenant_id := tenant_id r;
     payload := payload r;
     status := st;
     idempotency_key := idempotency_key r;
     retry_count := retry_count r;
     max_retries := max_retries r;
     created_at := created_at r;
     updated_at := now;
     leased_until := None;
     error_message := errorMsg;
     trace_id := trace_id r |}.

(** [now] is the [time.Now()] bound to [updated_at]. *)
Definition UpdateJobStatus (db : DB) (jobID : string) (st : StatusValue)
    (errorMsg : string) (now : Time) : DB :=
  update_where_id (set_status st now (nullString errorMsg)) jobID db.

Definition set_retry (retryCount : Z) (now : Time) (errorMsg : string) (r : Row) : Row :=
  {| id := id r;
     tenant_id := tenant_id r;
     payload := payload r;
     status := StatusFailed;
     idempotency_key := idempotency_key r;
     retry_count := retryCount;
     max_retries := max_retries r;
     created_at := created_at r;
     updated_at := now;
     leased_until := None;
     error_message := Some errorMsg;
     trace_id := trace_id r |}.

Definition UpdateJobForRetry (db : DB) (jobID : string) (retryCount : Z)
    (errorMsg : string) (now : Time) : DB :=
  update_where_id (set_retry retryCount now errorMsg) jobID db.

(** *** Times as the store compares them

    [main.go] loads the driver [mattn/go-sqlite3], which binds a
    [time.Time] as text, in the layout [2006-01-02 15:04:05.999999999-07:00]:
    the wall clock reading in the location of the value, then the offset
    of that location from UTC.  Every time the code binds comes from
    [time.Now()], so its location is [time.Local].  The columns
    [created_at], [updated_at] and [leased_until] hold that text, and
    [ORDER BY created_at] and [leased_until < ?] compare text with text,
    byte by byte.

    A row of the embedding keeps the instant; the text is the instant
    together with the offset in force at it.  An [Environment] gives
    - [zone_offset t]: the offset, in seconds east of UTC, with which the
      instant [t] is written.  It is any function of the instant: it may
      change as daylight saving does, or as the process is started again
      under another zone.  (What it leaves out is one instant written under
      two offsets.)
    - [tie_before r r']: whether SQLite yields [r] before [r'] when the
      two have the same sort key, which is the choice of its query plan. *)
Class Environment : Type := mkEnvironment {
  zone_offset : Time → Z;
  tie_before : Row → Row → bool
}.

(** The wall clock reading that the text of [t] shows, in nanoseconds. *)
Definition wall_clock {env : Environment} (t : Time) : Z :=
  t + zone_offset t * Second.

(** The end of the text: Go cuts the offset to whole minutes, towards
    zero, and prints a sign and then hours and minutes; the sign is "-"
    when the minutes are negative and "+" otherwise.  "+" sorts before
    "-", and under one sign the suffixes sort by their digits. *)
Definition suffix_rank (offset : Z) : Z * Z :=
  let minutes := Z.quot offset 60 in
  if minutes <? 0 then (1, - minutes) else (0, minutes).

(** The text of [t] up to order.  In years 0 to 9999, with an offset of
    less than a hundred hours, every field before the fraction of the
    second has a fixed width, so the texts of two wall clock readings
    compare as the readings do.  The fraction is cut after its last digit
    that is not zero and is followed by the sign of the offset; a sign
    sorts before "." and before every digit, so this holds down to the
    nanosecond.  Two texts of the same reading compare as their
    suffixes. *)
Definition text_key {env : Environment} (t : Time) : Z * (Z * Z) :=
  (wall_clock t, suffix_rank (zone_offset t)).

Definition key_ltb (k k' : Z * (Z * Z)) : bool :=
  (k.1 <? k'.1)
  || ((k.1 =? k'.1)
      && ((k.2.1 <? k'.2.1) || ((k.2.1 =? k'.2.1) && (k.2.2 <? k'.2.2)))).

(** [t < u] as SQLite decides it on the two texts. *)
Definition text_ltb {env : Environment} (t u : Time) : bool :=
  key_ltb (text_key t) (text_key u).

(** The [WHERE] clause of the [SELECT] of [LeaseJob]; [now] is bound as
    text.  A comparison with a NULL [leased_until] is not true. *)
Definition eligible {env : Environment} (now : Time) (r : Row) : bool :=
  bool_decide (status r = StatusPending)
  || (bool_decide (status r = StatusRunning)
      && match leased_until r with Some t => text_ltb t now | None => false end)
  || (bool_decide (status r = StatusFailed) && (retry_count r <? max_retries r)).

(** [ORDER BY created_at ASC] between two rows: the row that comes
    first. *)
Definition first_by_created_at {env : Environment} (r r' : Row) : Row :=
  if text_ltb (created_at r) (created_at r') then r
  else if text_ltb (created_at r') (created_at r) then r'
  else if tie_before r r' then r else r'.

(** [ORDER BY created_at ASC LIMIT 1]: a row whose [created_at] text is
    least. *)
Fixpoint oldest {env : Environment} (rows : list Row) : option Row :=
  match rows with
  | [] => None
  | r :: rest =>
      match oldest rest with
      | Some r' => Some (first_by_created_at r r')
      | None => Some r
      end
  end.

Definition set_lease (leaseUntil now : Time) (r : Row) : Row :=
  {| id := id r;
     tenant_id := tenant_id r;
     payload := payload r;
     status := StatusRunning;
     idempotency_key := idempotency_key r;
     retry_count := retry_count r;
     max_retries := max_retries r;
     created_at := created_at r;
     updated_at := now;
     leased_until := Some leaseUntil;
     error_message := error_message r;
     trace_id := trace_id r |}.

(** The [&models.Job{...}] that [LeaseJob] returns: built from the seven
    selected columns, with [Status] and [LeasedUntil] as just written;
    the other fields keep their zero values. *)
Definition leased_job (leaseUntil : Time) (r : Row) : Job :=
  {| ID := id r;
     TenantID := tenant_id r;
     Payload := payload r;
     Status := StatusRunning;
     IdempotencyKey := EmptyString;
     RetryCount := retry_count r;
     MaxRetries := max_retries r;
     CreatedAt := zeroTime;
     UpdatedAt := zeroTime;
     LeasedUntil := Some leaseUntil;
     ErrorMessage := EmptyString;
     TraceID := trace_id r |}.

(** [LeaseJob]: the transaction runs as one step; [now] is the
    [time.Now()] read inside it.  Without a matching row the [SELECT]
    fails with [sql.ErrNoRows] and the deferred rollback leaves the table
    as it was. *)
Definition LeaseJob {env : Environment} (db : DB) (leaseUntil now : Time)
  : DB * (Job + error) :=
  match oldest (List.filter (eligible now) db) with
  | None => (db, inr ErrNoRows)
  | Some r =>
      (update_where_id (set_lease leaseUntil now) (id r) db,
       inl (leased_job leaseUntil r))
  end.

(** [SUM(retry_count)]: SQLite raises "integer overflow" as soon as the
    running sum leaves [int64]. *)
Fixpoint sum_retry_count (acc : Z) (rows : list Row) : option Z :=
  match rows with
  | [] => Some acc
  | r :: rest =>
      let s := acc + retry_count r in
      if (s <? minInt64) || (maxInt64 <? s) then None
      else sum_retry_count s rest
  end.

(** [GetMetrics]: seven queries, each scanned into its field; the error
    of a [Scan] is dropped, which leaves the field at zero. *)
Definition GetMetrics (db : DB) : Metrics :=
  {| TotalJobs := count_where (λ _, true) db;
     PendingJobs := count_where (λ r, bool_decide (status r = StatusPending)) db;
     RunningJobs := count_where (λ r, bool_decide (status r = StatusRunning)) db;
     CompletedJobs := count_where (λ r, bool_decide (status r = StatusDone)) db;
     FailedJobs := count_where (λ r, bool_decide (status r = StatusFailed)
                                     && (retry_count r <? max_retries r)) db;
     DLQJobs := count_where (λ r, bool_decide (status r = StatusFailed)
                                  && (max_retries r <=? retry_count r)) db;
     TotalRetries := default 0 (sum_retry_count 0 db) |}.

(** [ORDER BY created_at DESC]: the rows from the greatest [created_at]
    text to the least. *)
Fixpoint insert_newest_first {env : Environment} (r : Row) (rows : list Row)
  : list Row :=
  match rows with
  | [] => [r]
  | r' :: rest =>
      if text_ltb (created_at r') (created_at r)
         || (negb (text_ltb (created_at r) (created_at r')) && tie_before r r')
      then r :: r' :: rest
      else r' :: insert_newest_first r rest
  end.

Definition newest_first {env : Environment} (rows : list Row) : list Row :=
  foldr insert_newest_first [] rows.

(** [LIMIT ?]: SQLite sets no bound when the limit is negative. *)
Definition limit_rows (limit : Z) (rows : list Row) : list Row :=
  if limit <? 0 then rows else take (Z.to_nat limit) rows.

(** The [WHERE] clause that [ListJobs] builds: each filter applies when
    its argument is not the empty string. *)
Definition listed (wantStatus tenantID : string) (r : Row) : bool :=
  (String.eqb wantStatus EmptyString
   || String.eqb (status_string (status r)) wantStatus)
  && (String.eqb tenantID EmptyString || String.eqb (tenant_id r) tenantID).

(** [ListJobs]; [wantStatus] is the argument [status].  [scanJobs]
    appends every row it scans. *)
Definition ListJobs {env : Environment} (db : DB) (wantStatus tenantID : string)
    (limit : Z) : list Job :=
  scanJob <$> limit_rows limit (newest_first (List.filter (listed wantStatus tenantID) db)).

Definition GetAllJobs {env : Environment} (db : DB) : list Job :=
  scanJob <$> newest_first db.

End database.

(** ** internal/worker/worker.go *)

Module worker.
Export database.

Definition leaseDuration : Duration := 30 * Second.

(** [executeJob]: the call sleeps and then decides the outcome from the
    clock, [time.Now().Unix()%5 != 0]; [afterSleep] is that reading.
    Go's [%] truncates towards zero, as [Z.rem] does. *)
Definition executeJob (job : Job) (afterSleep : Time) : bool :=
  negb (Z.rem (Unix afterSleep) 5 =? 0).

(** [job.RetryCount++] on the worker's copy of the job. *)
Definition count_failure (job : Job) : Job :=
  {| ID := ID job;
     TenantID := TenantID job;
     Payload := Payload job;
     Status := Status job;
     IdempotencyKey := IdempotencyKey job;
     RetryCount := wrap64 (RetryCount job + 1);
     MaxRetries := MaxRetries job;
     CreatedAt := CreatedAt job;
     UpdatedAt := UpdatedAt job;
     LeasedUntil := LeasedUntil job;
     ErrorMessage := ErrorMessage job;
     TraceID := TraceID job |}.

(** The second half of [processNextJob], "Acknowledge or retry the job":
    what is written once the executor has answered.  [now] is the
    [time.Now()] of the update that runs. *)
Definition acknowledge (db : DB) (job : Job) (success : bool) (now : Time) : DB :=
  if success then UpdateJobStatus db (ID job) StatusDone EmptyString now
  else
    let job := count_failure job in
    if MaxRetries job <=? RetryCount job
    then UpdateJobStatus db (ID job) StatusFailed "Max retries exceeded - moved to DLQ" now
    else UpdateJobForRetry db (ID job) (RetryCount job) "Job failed - will retry" now.

(** [processNextJob], one tick of one worker run to its end: [now] is
    the worker's own clock reading, [tLease] the one inside [LeaseJob],
    [tDone] the one that decides the outcome in [executeJob] and
    [tUpdate] the one of the final update.  Any error of [LeaseJob] ends
    the tick; [sql.ErrNoRows] does so without a log line. *)
Definition processNextJob {env : Environment} (db : DB)
    (now tLease tDone tUpdate : Time) : DB :=
  let leaseUntil := Add now leaseDuration in
  match LeaseJob db leaseUntil tLease with
  | (db1, inr _) => db1
  | (db1, inl job) => acknowledge db1 job (executeJob job tDone) tUpdate
  end.

(** The clock readings of one tick of a worker, in the order in which
    [processNextJob] takes them. *)
Record Tick : Type := mkTick {
  tick_now : Time;
  tick_lease : Time;
  tick_done : Time;
  tick_update : Time
}.

(** [Start]: the loop runs [processNextJob] once for each tick of the
    ticker, until the context is cancelled; [ticks] are the ticks that
    come before that.  The worker runs alone on the store. *)
Definition Start {env : Environment} (db : DB) (ticks : list Tick) : DB :=
  foldl (λ db t, processNextJob db (tick_now t) (tick_lease t) (tick_done t)
                   (tick_update t)) db ticks.

End worker.

(** ** internal/api *)

Module api.
Export database.

(** The server's handles on the shared state: the store and the rate
    limiter.  The websocket manager and the upgrader hold no queue
    state; [Broadcast] and the log lines leave both handles alone. *)
Record Server : Type := mkServer {
  db : DB;
  rateLimiter : ratelimit.RateLimiter
}.

Definition NewServer (db : DB) : Server :=
  {| db := db; rateLimiter := ratelimit.New 10 |}.

(** What a handler writes: a status code with a job as JSON body, or
    [http.Error] with a code and a message. *)
Inductive Response : Type :=
| JSON (code : Z) (job : Job)
| Error (code : Z) (msg : string).

Definition StatusOK : Z := 200.
Definition StatusCreated : Z := 201.
Definition StatusBadRequest : Z := 400.
Definition StatusNotFound : Z := 404.
Definition StatusMethodNotAllowed : Z := 405.
Definition StatusTooManyRequests : Z := 429.
Definition StatusInternalServerError : Z := 500.

(** The clock readings of one [SubmitJob]: inside [Allow], for the trace
    id, for the job id, and for the two timestamps of the row. *)
Record SubmitClock : Type := mkSubmitClock {
  tAllow : Time;
  tTrace : Time;
  tID : Time;
  tNow : Time
}.

(** "Check idempotency": the job found under the request's key, when
    the request has one and the lookup gives no error. *)
Definition existing_job (db : DB) (key : string) : option Job :=
  if String.eqb key EmptyString then None
  else match GetJobByIdempotencyKey db key with
       | inl existingJob => Some existingJob
       | inr _ => None
       end.

(** "Create new job": the job built from an admitted request. *)
Definition new_job (req : JobSubmitRequest) (clk : SubmitClock) : Job :=
  let maxRetries := if req_MaxRetries req =? 0 then 3 else req_MaxRetries req in
  {| ID := "job-" +:+ pretty (UnixNano (tID clk));
     TenantID := req_TenantID req;
     Payload := req_Payload req;
     Status := StatusPending;
     IdempotencyKey := req_IdempotencyKey req;
     RetryCount := 0;
     MaxRetries := maxRetries;
     CreatedAt := tNow clk;
     UpdatedAt := tNow clk;
     LeasedUntil := None;
     ErrorMessage := EmptyString;
     TraceID := "trace-" +:+ pretty (UnixNano (tTrace clk)) |}.

(** [SubmitJob].  [method] is [r.Method]; [body] is the decoded request,
    [None] when the body is not valid JSON for it. *)
Definition SubmitJob (s : Server) (method : string) (body : option JobSubmitRequest)
    (clk : SubmitClock) : Server * Response :=
  if negb (String.eqb method "POST")
  then (s, Error StatusMethodNotAllowed "Method not allowed")
  else
    match body with
    | None => (s, Error StatusBadRequest "Invalid request body")
    | Some req =>
        if String.eqb (req_TenantID req) EmptyString || String.eqb (req_Payload req) EmptyString
        then (s, Error StatusBadRequest "tenant_id and payload are required")
        else
          let '(ok, rl) := ratelimit.Allow (rateLimiter s) (req_TenantID req) (tAllow clk) in
          let s := {| db := db s; rateLimiter := rl |} in
          if negb ok
          then (s, Error StatusTooManyRequests "Rate limit exceeded")
          else
            let runningCount := GetRunningJobsCount (db s) (req_TenantID req) in
            if 5 <=? runningCount
            then (s, Error StatusTooManyRequests "Concurrent job limit exceeded (max 5)")
            else
              match existing_job (db s) (req_IdempotencyKey req) with
              | Some existingJob => (s, JSON StatusOK existingJob)
              | None =>
                  let job := new_job req clk in
                  match InsertJob (db s) job with
                  | (_, Some _) => (s, Error StatusInternalServerError "Failed to create job")
                  | (db', None) =>
                      ({| db := db'; rateLimiter := rateLimiter s |}, JSON StatusCreated job)
                  end
              end
    end.

(** What [GetJobStatus] answers once [GetJobByID] has returned. *)
Definition GetJobStatus_reply (found : Job + error) : Response :=
  match found with
  | inr _ => Error StatusNotFound "Job not found"
  | inl job => JSON StatusOK job
  end.

(** [GetJobStatus]; [jobID] is the query parameter [id]. *)
Definition GetJobStatus (s : Server) (jobID : string) : Response :=
  if String.eqb jobID EmptyString
  then Error StatusBadRequest "job id is required"
  else GetJobStatus_reply (GetJobByID (db s) jobID).

End api.

(** ** cmd/server/main.go: the running process

    [main] starts the workers and the HTTP server on one store and one
    rate limiter.  Every statement sent to the store is one step of the
    process, so between the lease a worker takes and the update it writes
    the other workers and the handlers may take steps of their own.  The
    state below keeps, next to the server's handles, the jobs that workers
    hold between [LeaseJob] and their update. *)

Module system.
Export worker.
Export api.

Record State : Type := mkState {
  server : Server;
  leased : list Job
}.

Inductive Event : Type :=
| Submit (method : string) (body : option JobSubmitRequest) (clk : SubmitClock)
| Lease (now tLease : Time)
| Acknowledge (i : nat) (tDone tUpdate : Time).

Definition set_db (s : Server) (db' : DB) : Server :=
  {| db := db'; rateLimiter := rateLimiter s |}.

(** [Lease] is the first half of [processNextJob], [Acknowledge i] the
    second half run by the worker that holds the [i]-th leased job. *)
Definition run_event {env : Environment} (st : State) (ev : Event) : State :=
  match ev with
  | Submit method body clk =>
      {| server := fst (SubmitJob (server st) method body clk);
         leased := leased st |}
  | Lease now tLease =>
      match LeaseJob (db (server st)) (Add now leaseDuration) tLease with
      | (db1, inl job) =>
          {| server := set_db (server st) db1; leased := (leased st ++ [job])%list |}
      | (_, inr _) => st
      end
  | Acknowledge i tDone tUpdate =>
      match leased st !! i with
      | Some job =>
          {| server := set_db (server st)
                         (acknowledge (db (server st)) job (executeJob job tDone) tUpdate);
             leased := delete i (leased st) |}
      | None => st
      end
  end.

Definition run {env : Environment} (st : State) (evs : list Event) : State :=
  foldl run_event st evs.

Definition init : State := {| server := NewServer []; leased := [] |}.

End system.

Import system.

(** ** internal/api, the list handler *)

Module handlers.

(** [ListJobs]: the two query parameters, and a limit of 100 rows.  The
    answer is the list of jobs as JSON. *)
Definition ListJobs {env : Environment} (s : Server) (wantStatus tenantID : string)
  : list Job :=
  database.ListJobs (db s) wantStatus tenantID 100.

End handlers.

(** * The vocabulary of the specification *)

Module spec.

(** The eligibility predicate in the words of the specification:
    Pending, or Running with a lease that ran out before [now], or Failed
    with retries left. *)
Definition Eligible (now : Time) (r : Row) : Prop :=
  status r = StatusPending
  ∨ (status r = StatusRunning ∧ ∃ t, leased_until r = Some t ∧ t < now)
  ∨ (status r = StatusFailed ∧ retry_count r < max_retries r).

(** Dead-lettered: Failed with the retry budget used up. *)
Definition DeadLettered (r : Row) : Prop :=
  status r = StatusFailed ∧ max_retries r <= retry_count r.


(** The job [LeaseJob] hands to the worker for the claimed row [r]. *)
Definition Handed (leaseUntil : Time) (r : Row) (job : Job) : Prop :=
  ID job = id r
  ∧ TenantID job = tenant_id r
  ∧ Payload job = payload r
  ∧ Status job = StatusRunning
  ∧ RetryCount job = retry_count r
  ∧ MaxRetries job = max_retries r
  ∧ TraceID job = trace_id r
  ∧ LeasedUntil job = Some leaseUntil.




(** [id] is the primary key. *)
Definition pk_unique (db : DB) : Prop := NoDup (id <$> db).

(** At most one row for each idempotency key that is not NULL. *)
Definition key_unique (db : DB) : Prop := NoDup (omap idempotency_key db).

(** [retry_count <= max_retries] on every row. *)
Definition retry_bounded (db : DB) : Prop :=
  Forall (λ r, retry_count r <= max_retries r) db.

#[global] Instance DeadLettered_dec (r : Row) : Decision (DeadLettered r).
Proof. unfold DeadLettered. apply _. Defined.

(** The failure transition in the words of the specification, for one
    tick of a worker: the row of the claimed job ends Failed; with the
    budget used up it carries [retry_count = max_retries] and the message
    "max retries exceeded", otherwise the count raised by one and still
    below [max_retries].  (The executor of the source answers with a
    boolean only, so no message of its own can be compared.) *)
Definition failure_recorded_as_specified {env : Environment} (db : DB)
    (now tLease tDone tUpdate : Time) : Prop :=
  ∀ db1 job,
    LeaseJob db (Add now leaseDuration) tLease = (db1, inl job) →
    executeJob job tDone = false →
    ∀ r, r ∈ processNextJob db now tLease tDone tUpdate → id r = ID job →
      status r = StatusFailed
      ∧ if decide (MaxRetries job <= RetryCount job + 1)
        then retry_count r = max_retries r
             ∧ error_message r = Some "max retries exceeded"
        else retry_count r = RetryCount job + 1
             ∧ retry_count r < max_retries r.

(** The duplicate submission in the words of the specification: with a
    job on file under the request's key, the answer is that job and
    nothing else happens; the server, store and rate limiter alike, is as
    before. *)
Definition duplicate_is_noop (s : Server) (req : JobSubmitRequest)
    (clk : SubmitClock) : Prop :=
  ∀ existingJob,
    req_IdempotencyKey req ≠ EmptyString →
    GetJobByIdempotencyKey (db s) (req_IdempotencyKey req) = inl existingJob →
    SubmitJob s "POST" (Some req) clk = (s, JSON StatusOK existingJob).

(** The retry bound across a submission in the words of the
    specification: whatever [max_retries] the request carries. *)
Definition submission_keeps_retry_bound (s : Server) (req : JobSubmitRequest)
    (clk : SubmitClock) : Prop :=
  retry_bounded (db s) →
  retry_bounded (db (fst (SubmitJob s "POST" (Some req) clk))).

(** Every job a worker holds is a row of the store, with the row's
    [max_retries]. *)
Definition leases_known (st : State) : Prop :=
  Forall (λ job, ∃ r, r ∈ db (server st)
                      ∧ id r = ID job ∧ max_retries r = MaxRetries job)
         (leased st).

Definition well_formed (st : State) : Prop :=
  pk_unique (db (server st)) ∧ retry_bounded (db (server st)) ∧ leases_known st.

(** The event is no submission that asks for a negative [max_retries]. *)
Definition no_negative_budget (ev : Event) : Prop :=
  match ev with
  | Submit _ (Some req) _ => 0 <= req_MaxRetries req
  | _ => True
  end.

End spec.

Import spec.

(** * Sample data *)

Module scenario.

(** A job that may fail once: [max_retries = 1]. *)
Definition one_shot_request : JobSubmitRequest :=
  {| req_TenantID := "t1"; req_Payload := "p1";
     req_IdempotencyKey := EmptyString; req_MaxRetries := 1 |}.

Definition clock_at (t : Time) : SubmitClock :=
  {| tAllow := t; tTrace := t + 1; tID := t + 2; tNow := t + 3 |}.

(** The job is submitted at second 1, claimed at second 10, and its
    execution ends at second 15, an instant whose Unix time is a multiple
    of 5: [executeJob] reports a failure. *)
Definition one_failure : list Event :=
  [ Submit "POST" (Some one_shot_request) (clock_at (1 * Second));
    Lease (10 * Second) (10 * Second);
    Acknowledge 0 (15 * Second) (15 * Second) ].

(** The row of such a job as [SubmitJob] stores it. *)
Definition one_shot_row : Row :=
  {| id := "job-1000000002"; tenant_id := "t1"; payload := "p1";
     status := StatusPending; idempotency_key := None;
     retry_count := 0; max_retries := 1;
     created_at := 1000000003; updated_at := 1000000003;
     leased_until := None; error_message := None;
     trace_id := "trace-1000000001" |}.

(** A pending row with the default budget of three. *)
Definition default_row : Row :=
  {| id := "job-7"; tenant_id := "t1"; payload := "p1";
     status := StatusPending; idempotency_key := Some "k";
     retry_count := 0; max_retries := 3;
     created_at := 7; updated_at := 7;
     leased_until := None; error_message := None;
     trace_id := "trace-7" |}.

(** A request that repeats the key of [default_row]. *)
Definition repeat_request : JobSubmitRequest :=
  {| req_TenantID := "t1"; req_Payload := "p1";
     req_IdempotencyKey := "k"; req_MaxRetries := 3 |}.

(** The limiter of a tenant that has used its ten tokens in the window
    opened at instant 0. *)
Definition spent_limiter : ratelimit.RateLimiter :=
  {| ratelimit.tenantTokens := {[ "t1" := 0 ]};
     ratelimit.tenantLastReset := {[ "t1" := 0 ]};
     ratelimit.maxJobsPerMin := 10 |}.

(** A request for a negative retry budget. *)
Definition negative_request : JobSubmitRequest :=
  {| req_TenantID := "t1"; req_Payload := "p1";
     req_IdempotencyKey := EmptyString; req_MaxRetries := -1 |}.

(** A process that runs under UTC throughout, on a store that yields
    rows of the same sort key from the last in the table to the first. *)
Definition plain : Environment :=
  {| zone_offset := λ _, 0; tie_before := λ _ _, false |}.

(** A zone that leaves daylight saving at second 100: the offset is two
    hours before that instant and one hour from then on, so that the wall
    clock is set back by an hour. *)
Definition autumn : Environment :=
  {| zone_offset := λ t, if t <? 100 * Second then 7200 else 3600;
     tie_before := λ _ _, false |}.

(** Two pending jobs, the first created ten seconds before the clock is
    set back and the second ten seconds after. *)
Definition summer_row : Row :=
  {| id := "job-90"; tenant_id := "t1"; payload := "p1";
     status := StatusPending; idempotency_key := None;
     retry_count := 0; max_retries := 3;
     created_at := 90 * Second; updated_at := 90 * Second;
     leased_until := None; error_message := None;
     trace_id := "trace-90" |}.

Definition winter_row : Row :=
  {| id := "job-110"; tenant_id := "t1"; payload := "p2";
     status := StatusPending; idempotency_key := None;
     retry_count := 0; max_retries := 3;
     created_at := 110 * Second; updated_at := 110 * Second;
     leased_until := None; error_message := None;
     trace_id := "trace-110" |}.


End scenario.

Import scenario.

(** * Further vocabulary *)

Module further.

(** [job'] is [job] as the store gives it back after an insert: the
    inserted columns as they were, no lease and no error message. *)
Definition ReadBack (job job' : Job) : Prop :=
  ID job' = ID job
  ∧ TenantID job' = TenantID job
  ∧ Payload job' = Payload job
  ∧ Status job' = Status job
  ∧ IdempotencyKey job' = IdempotencyKey job
  ∧ RetryCount job' = RetryCount job
  ∧ MaxRetries job' = MaxRetries job
  ∧ CreatedAt job' = CreatedAt job
  ∧ UpdatedAt job' = UpdatedAt job
  ∧ TraceID job' = TraceID job
  ∧ LeasedUntil job' = None
  ∧ ErrorMessage job' = EmptyString.

(** The columns that no statement of the code ever sets after the
    insert. *)
Definition SameIdentity (r r' : Row) : Prop :=
  id r' = id r
  ∧ tenant_id r' = tenant_id r
  ∧ payload r' = payload r
  ∧ idempotency_key r' = idempotency_key r
  ∧ max_retries r' = max_retries r
  ∧ created_at r' = created_at r
  ∧ trace_id r' = trace_id r.

(** How the status of a row goes with its other columns: a lease exactly
    on Running rows; no error message on Pending and Done rows; no retry
    counted on a Pending row. *)
Definition Coherent (r : Row) : Prop :=
  (status r = StatusRunning ↔ leased_until r ≠ None)
  ∧ (status r = StatusPending → retry_count r = 0 ∧ error_message r = None)
  ∧ (status r = StatusDone → error_message r = None).

(** Every row has retries left, with a budget that fits Go's [int]. *)
Definition below_budget (db : DB) : Prop :=
  Forall (λ r, 0 <= retry_count r < max_retries r ∧ max_retries r <= maxInt64) db.

(** Every job a worker holds has retries left and is a row of the store,
    with the row's [max_retries]. *)
Definition leases_below_budget (st : State) : Prop :=
  Forall (λ job, 0 <= RetryCount job < MaxRetries job
                 ∧ ∃ r, r ∈ db (server st)
                        ∧ id r = ID job ∧ max_retries r = MaxRetries job)
         (leased st).

(** The invariant that carries [below_budget] through the steps of the
    process. *)
Definition budget_invariant (st : State) : Prop :=
  pk_unique (db (server st)) ∧ below_budget (db (server st))
  ∧ leases_below_budget st.

(** The event is no submission whose [max_retries] is negative; a
    decoded [max_retries] is a Go [int]. *)
Definition int_budget (ev : Event) : Prop :=
  match ev with
  | Submit _ (Some req) _ => 0 <= req_MaxRetries req <= maxInt64
  | _ => True
  end.

(** Newest first, on rows and on jobs. *)
Definition rows_newest_first (rows : list Row) : Prop :=
  StronglySorted (λ r r', created_at r' <= created_at r) rows.

Definition jobs_newest_first (jobs : list Job) : Prop :=
  StronglySorted (λ j j', CreatedAt j' <= CreatedAt j) jobs.

(** The same on the text of [created_at]: nothing is followed by a time
    whose text is greater. *)
Definition rows_by_text {env : Environment} (rows : list Row) : Prop :=
  StronglySorted (λ r r', text_ltb (created_at r) (created_at r') = false) rows.

Definition jobs_by_text {env : Environment} (jobs : list Job) : Prop :=
  StronglySorted (λ j j', text_ltb (CreatedAt j) (CreatedAt j') = false) jobs.

(** The [created_at] of all rows are written with one zone offset. *)
Definition created_at_one_offset {env : Environment} (db : DB) : Prop :=
  ∀ r r', r ∈ db → r' ∈ db →
    zone_offset (created_at r) = zone_offset (created_at r').

(** No two rows have the same [created_at] text. *)
Definition created_at_distinct {env : Environment} (db : DB) : Prop :=
  ∀ i j r r', db !! i = Some r → db !! j = Some r' → i ≠ j →
    text_ltb (created_at r) (created_at r') = true
    ∨ text_ltb (created_at r') (created_at r) = true.

(** The filters of [ListJobs] as propositions. *)
Definition Listed (wantStatus tenantID : string) (r : Row) : Prop :=
  (wantStatus = EmptyString ∨ status_string (status r) = wantStatus)
  ∧ (tenantID = EmptyString ∨ tenant_id r = tenantID).

#[global] Instance Listed_dec (wantStatus tenantID : string) (r : Row) :
  Decision (Listed wantStatus tenantID r).
Proof. unfold Listed. apply _. Defined.

(** Two submissions at the same instant, neither with a key. *)
Definition twin_request : JobSubmitRequest :=
  {| req_TenantID := "t2"; req_Payload := "p2";
     req_IdempotencyKey := EmptyString; req_MaxRetries := 0 |}.

(** A job claimed by one worker, claimed again by a second worker once
    the lease has run out, and finished by the second. *)
Definition overtaken : list Event :=
  [ Submit "POST" (Some scenario.repeat_request) (clock_at (1 * Second));
    Lease (10 * Second) (10 * Second);
    Lease (41 * Second) (41 * Second);
    Acknowledge 1 (46 * Second) (46 * Second) ].

(** Five jobs of tenant "t1", all Running. *)
Definition running_row (n : Z) : Row :=
  {| id := "job-" +:+ pretty n; tenant_id := "t1"; payload := "p";
     status := StatusRunning; idempotency_key := None;
     retry_count := 0; max_retries := 3;
     created_at := n; updated_at := n;
     leased_until := Some (n + 30 * Second); error_message := None;
     trace_id := "trace-" +:+ pretty n |}.

Definition busy_store : DB := running_row <$> [1; 2; 3; 4; 5].

(** A finished job and a pending one, and two ticks of a worker. *)
Definition finished_row : Row := set_status StatusDone 20 None scenario.default_row.

Definition two_ticks : list Tick :=
  [ {| tick_now := 30 * Second; tick_lease := 30 * Second;
       tick_done := 35 * Second; tick_update := 35 * Second |};
    {| tick_now := 40 * Second; tick_lease := 40 * Second;
       tick_done := 41 * Second; tick_update := 41 * Second |} ].

(** The calls of one tenant among the calls of all. *)
Definition own_calls (tenantID : string) (calls : list (string * Time))
  : list (string * Time) :=
  filter (λ c, fst c = tenantID) calls.

(** Two limiters that agree on one tenant and on the limit. *)
Definition agree_on (tenantID : string) (rl rl' : ratelimit.RateLimiter) : Prop :=
  ratelimit.tenantTokens rl !! tenantID = ratelimit.tenantTokens rl' !! tenantID
  ∧ ratelimit.tenantLastReset rl !! tenantID
    = ratelimit.tenantLastReset rl' !! tenantID
  ∧ ratelimit.maxJobsPerMin rl = ratelimit.maxJobsPerMin rl'.

(** The sum of the retry counts of all rows. *)
Definition retries_sum (db : DB) : Z := foldr (λ r acc, retry_count r + acc) 0 db.

End further.

Import further.

(** * Properties *)

(** ** The definitions at work *)

Section checks.
Existing Instance plain.

Example Sub_saturates : Sub (2 ^ 64) 0 = maxInt64 ∧ Sub 0 (2 ^ 64) = minInt64.
Proof. by vm_compute. Qed.

Example executeJob_fails_on_multiples_of_five :
  executeJob (scanJob default_row) (15 * Second) = false
  ∧ executeJob (scanJob default_row) (16 * Second + 999999999) = true.
Proof. by vm_compute. Qed.

(** The eleventh call of a minute is refused. *)
Example Allow_spent : fst (ratelimit.Allow spent_limiter "t1" (59 * Second)) = false.
Proof. by vm_compute. Qed.

(** Exactly one minute after the reset the window is still the old one;
    one nanosecond later it is a new one. *)
Example Allow_window_edge :
  fst (ratelimit.Allow spent_limiter "t1" Minute) = false
  ∧ fst (ratelimit.Allow spent_limiter "t1" (Minute + 1)) = true.
Proof. by vm_compute. Qed.

(** Of two eligible rows the older one is claimed, though it stands
    second in the table. *)
Example LeaseJob_prefers_older :
  snd (LeaseJob [one_shot_row; default_row] 100 50) = inl (leased_job 100 default_row).
Proof. by vm_compute. Qed.

Example LeaseJob_empty : LeaseJob [] 100 50 = ([], inr ErrNoRows).
Proof. done. Qed.

(** A request for a negative budget is taken as it comes. *)
Example negative_request_accepted :
  snd (SubmitJob (NewServer []) "POST" (Some negative_request) (clock_at (1 * Second)))
  = JSON StatusCreated (new_job negative_request (clock_at (1 * Second)))
  ∧ MaxRetries (new_job negative_request (clock_at (1 * Second))) = -1.
Proof. by vm_compute. Qed.

(** The clock is set back between the creation of two jobs: the text of
    the later job is the smaller one, and that job is claimed first. *)
Example text_order_across_offsets :
  text_ltb (env := autumn) (110 * Second) (90 * Second) = true
  ∧ snd (LeaseJob (env := autumn) [summer_row; winter_row] (150 * Second) (120 * Second))
    = inl (leased_job (150 * Second) winter_row).
Proof. by vm_compute. Qed.

End checks.

(** ** The rate gate *)

Section rate_gate.
Import ratelimit.

Lemma Sub_exceeds_Minute (t u : Time) : (Minute <? Sub t u) = (Minute <? t - u).
Proof.
  unfold Sub, maxInt64, minInt64, Minute, Second, Nanosecond.
  repeat case_match; lia.
Qed.

Lemma tokens_of_reset rl tenantID now :
  tokens_of (reset rl tenantID now) tenantID = maxJobsPerMin rl.
Proof. unfold tokens_of, reset; simpl. by rewrite lookup_insert_eq. Qed.

Lemma tokens_of_consume rl tenantID :
  tokens_of (consume rl tenantID) tenantID = tokens_of rl tenantID - 1.
Proof. unfold tokens_of at 1, consume; simpl. by rewrite lookup_insert_eq. Qed.

(** A call that opens a window is allowed whenever the limit is
    positive, and leaves the window stamped with its own time. *)
Lemma Allow_opens_window rl tenantID now :
  must_reset rl tenantID now = true →
  0 < maxJobsPerMin rl →
  Allow rl tenantID now = (true, consume (reset rl tenantID now) tenantID).
Proof.
  intros Hreset Hmax. unfold Allow. rewrite Hreset, tokens_of_reset.
  by destruct (Z.ltb_spec 0 (maxJobsPerMin rl)); [|lia].
Qed.

(** Inside the window nothing is refilled. *)
Lemma Allow_in_window rl tenantID now t0 :
  tenantLastReset rl !! tenantID = Some t0 →
  now - t0 <= Minute →
  Allow rl tenantID now =
    if 0 <? tokens_of rl tenantID then (true, consume rl tenantID) else (false, rl).
Proof.
  intros Hlast Hin. unfold Allow, must_reset. rewrite Hlast, Sub_exceeds_Minute.
  by destruct (Z.ltb_spec Minute (now - t0)); [lia|].
Qed.

(** A call of one tenant leaves the counters of every other tenant and
    the limit alone. *)
Lemma Allow_frame rl caller now tenantID :
  caller ≠ tenantID →
  let rl' := snd (Allow rl caller now) in
  tenantTokens rl' !! tenantID = tenantTokens rl !! tenantID
  ∧ tenantLastReset rl' !! tenantID = tenantLastReset rl !! tenantID
  ∧ maxJobsPerMin rl' = maxJobsPerMin rl.
Proof.
  intros Hne. unfold Allow, consume, reset.
  repeat case_match; simpl; rewrite ?lookup_insert_ne by done; done.
Qed.

Lemma Allow_maxJobsPerMin rl caller now :
  maxJobsPerMin (snd (Allow rl caller now)) = maxJobsPerMin rl.
Proof. unfold Allow, consume, reset. by repeat case_match. Qed.

(** The answers inside one window: with [k] tokens left, the next [k]
    calls of the tenant pass and all later ones are refused. *)
Lemma answers_in_window tenantID t0 calls :
  ∀ rl (k : nat),
    tenantLastReset rl !! tenantID = Some t0 →
    tokens_of rl tenantID = Z.of_nat k →
    Forall (λ t, t - t0 <= Minute) (calls_of tenantID calls) →
    let n := length (calls_of tenantID calls) in
    let '(oks, rl') := answers_to tenantID rl calls in
    oks = (replicate (k `min` n) true ++ replicate (n - k) false)%list
    ∧ tokens_of rl' tenantID = Z.of_nat (k - n)
    ∧ tenantLastReset rl' !! tenantID = Some t0
    ∧ maxJobsPerMin rl' = maxJobsPerMin rl.
Proof.
  induction calls as [|[caller now] rest IH]; intros rl k Hlast Htok Hwin; simpl.
  { rewrite Nat.min_0_r, Nat.sub_0_r. done. }
  simpl in Hwin.
  destruct (String.eqb_spec caller tenantID) as [->|Hne].
  - apply Forall_cons in Hwin as [Hnow Hwin].
    rewrite (Allow_in_window _ _ _ _ Hlast Hnow), Htok.
    destruct k as [|k]; simpl.
    + specialize (IH rl 0%nat Hlast Htok Hwin).
      simpl in IH. destruct (answers_to tenantID rl rest) as [oks rl'].
      destruct IH as (-> & ? & ? & ?). simpl. rewrite Nat.sub_0_r. done.
    + replace (0 <? Z.of_nat (S k)) with true by (symmetry; apply Z.ltb_lt; lia).
      specialize (IH (consume rl tenantID) k).
      destruct (answers_to tenantID (consume rl tenantID) rest) as [oks rl'].
      destruct IH as (-> & ? & ? & ?); [done| |done|done].
      rewrite tokens_of_consume, Htok. lia.
  - destruct (Allow_frame rl caller now tenantID Hne) as (Htok' & Hlast' & Hmax').
    destruct (Allow rl caller now) as [ok rl1]; simpl in *.
    specialize (IH rl1 k).
    destruct (answers_to tenantID rl1 rest) as [oks rl'].
    destruct IH as (-> & ? & ? & ?); [congruence| |done|].
    + unfold tokens_of in *. by rewrite Htok'.
    + repeat split; try done. congruence.
Qed.

(** C6.  The rate gate is a fixed window of 10 tokens per minute, reset
    lazily.  Take a limiter with the limit of [NewServer] and a call of
    a tenant at [t0] that opens a window (the tenant's first call, or one
    more than a minute after its last reset).  That call passes and
    leaves 9 tokens, stamped [t0].  Of the tenant's [n] further calls
    within the minute, mixed at will with calls of other tenants, the
    first 9 pass, each taking one token, and every later one is refused:
    the 11th call of the window is the first to fail.  The first call
    later than [t0] plus a minute finds the gate due for a reset, which
    refills the tokens to 10 and stamps the window with that call's time;
    it passes and leaves 9 again. *)
Theorem rate_gate_fixed_window (rl : RateLimiter) (tenantID : string) (t0 : Time)
    (calls : list (string * Time)) (t1 : Time) :
  maxJobsPerMin rl = 10 →
  must_reset rl tenantID t0 = true →
  Forall (λ t, t - t0 <= Minute) (calls_of tenantID calls) →
  Minute < t1 - t0 →
  let n := length (calls_of tenantID calls) in
  let '(ok0, rl0) := Allow rl tenantID t0 in
  let '(oks, rl1) := answers_to tenantID rl0 calls in
  let '(ok1, rl2) := Allow rl1 tenantID t1 in
  (ok0 = true ∧ tokens_of rl0 tenantID = 9 ∧ tenantLastReset rl0 !! tenantID = Some t0)
  ∧ (oks = (replicate (9 `min` n) true ++ replicate (n - 9) false)%list
     ∧ tokens_of rl1 tenantID = 9 - Z.of_nat (9 `min` n))
  ∧ (must_reset rl1 tenantID t1 = true
     ∧ tokens_of (reset rl1 tenantID t1) tenantID = 10
     ∧ tenantLastReset (reset rl1 tenantID t1) !! tenantID = Some t1)
  ∧ (ok1 = true ∧ tokens_of rl2 tenantID = 9 ∧ tenantLastReset rl2 !! tenantID = Some t1).
Proof.
  intros Hmax Hreset Hwin Hlate n.
  rewrite (Allow_opens_window _ _ _ Hreset) by lia.
  set (rl0 := consume (reset rl tenantID t0) tenantID).
  assert (Hlast0 : tenantLastReset rl0 !! tenantID = Some t0).
  { unfold rl0, consume, reset; simpl. by rewrite lookup_insert_eq. }
  assert (Htok0 : tokens_of rl0 tenantID = Z.of_nat 9).
  { unfold rl0. rewrite tokens_of_consume, tokens_of_reset, Hmax. done. }
  pose proof (answers_in_window tenantID t0 calls rl0 9%nat Hlast0 Htok0 Hwin) as Hrun.
  simpl in Hrun. fold n in Hrun.
  destruct (answers_to tenantID rl0 calls) as [oks rl1].
  destruct Hrun as (Hoks & Htok1 & Hlast1 & Hmax1).
  assert (Hreset1 : must_reset rl1 tenantID t1 = true).
  { unfold must_reset. rewrite Hlast1, Sub_exceeds_Minute. apply Z.ltb_lt. lia. }
  assert (Hmax1' : maxJobsPerMin rl1 = 10) by (rewrite Hmax1; exact Hmax).
  rewrite (Allow_opens_window _ _ _ Hreset1) by lia.
  rewrite tokens_of_consume, !tokens_of_reset, Hmax1'.
  repeat split; try done.
  - rewrite Htok1. lia.
  - unfold reset; simpl. by rewrite lookup_insert_eq.
  - unfold consume, reset; simpl. by rewrite lookup_insert_eq.
Qed.

(** Twelve calls of one tenant, one second apart and a neighbour's call
    among them, then one call 61 seconds after the first: ten pass, two
    are refused, and the late one passes again. *)
Lemma rate_gate_fixed_window_witness :
  let rl := rateLimiter (NewServer []) in
  let calls := [("t1", 1 * Second); ("t1", 2 * Second); ("t1", 3 * Second);
                ("t2", 3 * Second); ("t1", 4 * Second); ("t1", 5 * Second);
                ("t1", 6 * Second); ("t1", 7 * Second); ("t1", 8 * Second);
                ("t1", 9 * Second); ("t1", 10 * Second); ("t1", 11 * Second)] in
  fst (Allow rl "t1" 0) = true
  ∧ fst (answers_to "t1" (snd (Allow rl "t1" 0)) calls)
    = [true; true; true; true; true; true; true; true; true; false; false]
  ∧ fst (Allow (snd (answers_to "t1" (snd (Allow rl "t1" 0)) calls)) "t1" (61 * Second))
    = true.
Proof.
  intros rl calls.
  assert (H1 : maxJobsPerMin rl = 10) by reflexivity.
  assert (H2 : must_reset rl "t1" 0 = true) by reflexivity.
  assert (H3 : Forall (λ t, t - 0 <= Minute) (calls_of "t1" calls)).
  { cbn. repeat constructor; discriminate. }
  assert (H4 : Minute < 61 * Second - 0) by reflexivity.
  pose proof (rate_gate_fixed_window rl "t1" 0 calls (61 * Second) H1 H2 H3 H4) as H.
  cbv zeta in H.
  destruct (Allow rl "t1" 0) as [ok0 rl0]; cbn [fst snd].
  destruct (answers_to "t1" rl0 calls) as [oks rl1]; cbn [fst snd].
  destruct (Allow rl1 "t1" (61 * Second)) as [ok1 rl2]; cbn [fst snd].
  destruct H as ((H0 & _) & (Hoks & _) & _ & (Hok1 & _)).
  split; [exact H0 | split; [exact Hoks | exact Hok1]].
Defined.

End rate_gate.

(** ** Times as the store compares them *)

Section time_text.
Context {env : Environment}.

Lemma key_ltb_lt (k k' : Z * (Z * Z)) :
  key_ltb k k' = true
  ↔ k.1 < k'.1
    ∨ (k.1 = k'.1 ∧ (k.2.1 < k'.2.1 ∨ (k.2.1 = k'.2.1 ∧ k.2.2 < k'.2.2))).
Proof.
  unfold key_ltb.
  rewrite !orb_true_iff, !andb_true_iff, !orb_true_iff, !andb_true_iff,
    !Z.ltb_lt, !Z.eqb_eq. done.
Qed.

Lemma key_ltb_ge (k k' : Z * (Z * Z)) :
  key_ltb k k' = false
  ↔ k'.1 < k.1
    ∨ (k.1 = k'.1 ∧ (k'.2.1 < k.2.1 ∨ (k.2.1 = k'.2.1 ∧ k'.2.2 <= k.2.2))).
Proof.
  rewrite <- not_true_iff_false, key_ltb_lt. lia.
Qed.

(** The order of the texts is a strict order, and "not less" is
    transitive as well. *)
Lemma text_ltb_irrefl (t : Time) : text_ltb t t = false.
Proof. unfold text_ltb. apply key_ltb_ge. lia. Qed.

Lemma text_ltb_asym (t u : Time) : text_ltb t u = true → text_ltb u t = false.
Proof. unfold text_ltb. rewrite key_ltb_lt, key_ltb_ge. lia. Qed.

Lemma text_ltb_trans (t u v : Time) :
  text_ltb t u = true → text_ltb u v = true → text_ltb t v = true.
Proof. unfold text_ltb. rewrite !key_ltb_lt. lia. Qed.

Lemma text_geb_trans (t u v : Time) :
  text_ltb t u = false → text_ltb u v = false → text_ltb t v = false.
Proof. unfold text_ltb. rewrite !key_ltb_ge. lia. Qed.

(** Two times written with one offset compare as instants. *)
Lemma text_ltb_one_offset (t u : Time) :
  zone_offset t = zone_offset u → text_ltb t u = (t <? u).
Proof.
  intros Hzone. destruct (Z.ltb_spec t u).
  - apply key_ltb_lt. left. unfold text_key, wall_clock; simpl. rewrite Hzone. lia.
  - apply key_ltb_ge. unfold text_key, wall_clock; simpl. rewrite Hzone. lia.
Qed.

End time_text.

(** ** The store: selection and claim *)

Section store.
Context {env : Environment}.


Lemma dead_letter_not_eligible (now : Time) (r : Row) :
  DeadLettered r → ¬ Eligible now r.
Proof.
  intros [Hst Hrc] [Hp|[[Hr _]|[_ Hlt]]]; try congruence. lia.
Qed.

(** Whatever the texts, the [WHERE] clause is false of a row that is
    Done or dead-lettered. *)
Lemma terminal_not_eligible (now : Time) (r : Row) :
  status r = StatusDone ∨ DeadLettered r → eligible now r = false.
Proof.
  unfold eligible. intros [Hst|[Hst Hrc]]; rewrite Hst; simpl; [done|].
  apply Z.ltb_ge. lia.
Qed.

Lemma elem_of_filter_bool (p : Row → bool) (rows : list Row) (r : Row) :
  r ∈ List.filter p rows ↔ r ∈ rows ∧ p r = true.
Proof. rewrite !list_elem_of_In. apply filter_In. Qed.

Lemma oldest_None (rows : list Row) : oldest rows = None ↔ rows = [].
Proof.
  destruct rows as [|r rest]; simpl; [done|].
  split; [|done]. by destruct (oldest rest).
Qed.

(** Of two rows, [first_by_created_at] answers with one whose text is
    not greater than that of the other. *)
Lemma first_by_created_at_least (r r' : Row) :
  let r0 := first_by_created_at r r' in
  (r0 = r ∨ r0 = r')
  ∧ text_ltb (created_at r) (created_at r0) = false
  ∧ text_ltb (created_at r') (created_at r0) = false.
Proof.
  unfold first_by_created_at.
  destruct (text_ltb (created_at r) (created_at r')) eqn:Hlt.
  { split; [by left|]. split; [apply text_ltb_irrefl|by apply text_ltb_asym]. }
  destruct (text_ltb (created_at r') (created_at r)) eqn:Hgt.
  { split; [by right|]. split; [done|apply text_ltb_irrefl]. }
  destruct (tie_before r r').
  - split; [by left|]. split; [apply text_ltb_irrefl|done].
  - split; [by right|]. split; [done|apply text_ltb_irrefl].
Qed.

(** [oldest] answers with a row of the list that no row of the list
    precedes in the text of [created_at]. *)
Lemma oldest_Some (rows : list Row) (r : Row) :
  oldest rows = Some r →
  r ∈ rows ∧ ∀ r', r' ∈ rows → text_ltb (created_at r') (created_at r) = false.
Proof.
  revert r. induction rows as [|r0 rest IH]; intros r; simpl; [done|].
  destruct (oldest rest) as [r'|] eqn:Hrest.
  - destruct (IH r' eq_refl) as [Hin Hmin].
    destruct (first_by_created_at_least r0 r') as (Hcase & Hle0 & Hle').
    intros [= <-]. split.
    + destruct Hcase as [-> | ->]; [by left|by right].
    + intros x [->|Hx]%elem_of_cons; [done|].
      apply (text_geb_trans _ (created_at r')); [by apply Hmin|done].
  - apply oldest_None in Hrest as ->. intros [= <-].
    split; [by left|]. intros x ->%list_elem_of_singleton. apply text_ltb_irrefl.
Qed.

Lemma update_where_id_lookup (set : Row → Row) (jobID : string) (db : DB) (i : nat) :
  update_where_id set jobID db !! i
  = (λ r, if String.eqb (id r) jobID then set r else r) <$> db !! i.
Proof. unfold update_where_id. apply list_lookup_fmap. Qed.



Lemma leased_job_Handed (leaseUntil : Time) (r : Row) :
  Handed leaseUntil r (leased_job leaseUntil r).
Proof. by repeat split. Qed.

(** What a successful [LeaseJob] did, in terms of the row it selected:
    a row that passes the [WHERE] clause, and that no other such row
    precedes in the text of [created_at]. *)
Lemma LeaseJob_inl (db db' : DB) (leaseUntil now : Time) (job : Job) :
  LeaseJob db leaseUntil now = (db', inl job) →
  ∃ r, r ∈ db ∧ eligible now r = true
    ∧ (∀ r', r' ∈ db → eligible now r' = true →
         text_ltb (created_at r') (created_at r) = false)
    ∧ job = leased_job leaseUntil r
    ∧ db' = update_where_id (set_lease leaseUntil now) (id r) db.
Proof.
  unfold LeaseJob. destruct (oldest _) as [r|] eqn:Hsel; [|done].
  intros [= <- <-]. apply oldest_Some in Hsel as [Hin Hmin].
  apply elem_of_filter_bool in Hin as [Hin Hel].
  exists r. repeat split; try done.
  intros r' Hin' Hel'. by apply Hmin, elem_of_filter_bool.
Qed.

Lemma LeaseJob_inr (db db' : DB) (leaseUntil now : Time) (err : error) :
  LeaseJob db leaseUntil now = (db', inr err) →
  err = ErrNoRows ∧ db' = db ∧ ∀ r, r ∈ db → eligible now r = false.
Proof.
  unfold LeaseJob. destruct (oldest _) as [r|] eqn:Hsel; [done|].
  intros [= <- <-]. repeat split.
  apply oldest_None in Hsel. intros r Hin.
  destruct (eligible now r) eqn:Hel; [|done].
  assert (r ∈ List.filter (eligible now) db) as Hf by by apply elem_of_filter_bool.
  rewrite Hsel in Hf. by apply not_elem_of_nil in Hf.
Qed.





End store.

Section store_cases.
Existing Instance plain.




End store_cases.

(** ** Lease expiry *)

Section lease_expiry.
Context {env : Environment}.

Lemma pk_unique_inj (db : DB) (r r' : Row) :
  pk_unique db → r ∈ db → r' ∈ db → id r = id r' → r = r'.
Proof.
  intros Hpk [i Hi]%list_elem_of_lookup [j Hj]%list_elem_of_lookup Hid.
  assert (i = j) as ->; [|congruence].
  apply (NoDup_lookup (id <$> db) i j (id r) Hpk).
  - by rewrite list_lookup_fmap, Hi.
  - by rewrite list_lookup_fmap, Hj, Hid.
Qed.

Lemma pk_unique_lookup (db : DB) (i j : nat) (r r' : Row) :
  pk_unique db → db !! i = Some r → db !! j = Some r' → id r = id r' → i = j.
Proof.
  intros Hpk Hi Hj Hid.
  apply (NoDup_lookup (id <$> db) i j (id r) Hpk).
  - by rewrite list_lookup_fmap, Hi.
  - by rewrite list_lookup_fmap, Hj, Hid.
Qed.

(** With [id] a key, an update by id rewrites one row and keeps the
    others. *)
Lemma update_where_id_row (set : Row → Row) (jobID : string) (db : DB)
    (i : nat) (r : Row) :
  pk_unique db → db !! i = Some r → id r = jobID →
  update_where_id set jobID db !! i = Some (set r)
  ∧ ∀ j r', j ≠ i → db !! j = Some r' →
      update_where_id set jobID db !! j = Some r'.
Proof.
  intros Hpk Hi <-. split.
  - rewrite update_where_id_lookup, Hi. simpl. by rewrite String.eqb_refl.
  - intros j r' Hne Hj. rewrite update_where_id_lookup, Hj. simpl.
    destruct (String.eqb_spec (id r') (id r)) as [Hid|]; [|done].
    destruct Hne. by apply (pk_unique_lookup db j i r' r).
Qed.


(** [LeaseJob] never hands out a dead-lettered row. *)
Lemma LeaseJob_never_hands_dead_letter (db db' : DB) (leaseUntil now : Time)
    (r : Row) (job : Job) :
  pk_unique db → r ∈ db → DeadLettered r →
  LeaseJob db leaseUntil now = (db', inl job) →
  ID job ≠ id r.
Proof.
  intros Hpk Hr Hdead Hlease Hsame.
  destruct (LeaseJob_inl _ _ _ _ _ Hlease) as (r0 & Hr0 & Hel & _ & -> & _).
  simpl in Hsame. assert (r0 = r) as -> by by apply (pk_unique_inj db).
  rewrite terminal_not_eligible in Hel by by right. done.
Qed.

(** X21.  Two claims with nothing written to the store in between.  The
    second, run on the store as the first left it, at an instant that is
    not after the end of the lease the first has written and that is
    written with the same zone offset as that end, does not hand out the
    job of the first.  (The update a worker writes clears the lease, so
    this says nothing of a claim that comes after it.) *)
Lemma leased_job_not_claimed_again (db db1 db2 : DB)
    (leaseUntil now leaseUntil' now' : Time) (job job' : Job) :
  pk_unique db →
  LeaseJob db leaseUntil now = (db1, inl job) →
  zone_offset now' = zone_offset leaseUntil →
  now' <= leaseUntil →
  LeaseJob db1 leaseUntil' now' = (db2, inl job') →
  ID job' ≠ ID job.
Proof.
  intros Hpk Hfirst Hzone Hin Hsecond Hsame.
  destruct (LeaseJob_inl _ _ _ _ _ Hfirst) as (r & Hr & _ & _ & -> & ->).
  destruct (LeaseJob_inl _ _ _ _ _ Hsecond) as (r' & Hr' & Hel' & _ & -> & _).
  simpl in Hsame.
  apply list_elem_of_fmap in Hr' as (r0 & -> & Hr0).
  destruct (String.eqb_spec (id r0) (id r)) as [Hid|Hne]; [|by destruct Hne].
  unfold eligible in Hel'. simpl in Hel'.
  rewrite text_ltb_one_offset, orb_false_r in Hel' by done.
  apply Z.ltb_lt in Hel'. lia.
Qed.

End lease_expiry.

Section lease_expiry_cases.
Existing Instance plain.



End lease_expiry_cases.

(** ** Metrics *)

Section metrics.

Lemma count_where_cons (p : Row → bool) (r : Row) (db : DB) :
  count_where p (r :: db) = (if p r then 1 else 0) + count_where p db.
Proof. unfold count_where. simpl. destruct (p r); simpl; lia. Qed.

(** A count by a boolean test is the count by the proposition the test
    decides. *)
Lemma count_where_filter (p : Row → bool) (P : Row → Prop)
    `{!∀ r, Decision (P r)} (db : DB) :
  (∀ r, p r = true ↔ P r) →
  count_where p db = Z.of_nat (length (filter P db)).
Proof.
  intros Hp. induction db as [|r db IH]; [done|].
  rewrite count_where_cons, IH.
  destruct (p r) eqn:Hr.
  - rewrite filter_cons_True by by apply Hp. simpl. lia.
  - rewrite filter_cons_False; [done|]. rewrite <- Hp. congruence.
Qed.

(** C10.  The counts of [GetMetrics] split the table: [failed_jobs]
    counts the rows that are failed with [retry_count < max_retries],
    [dlq_jobs] the rows that are failed with
    [retry_count >= max_retries], and pending, running, completed, failed
    and dead-lettered together are all the rows; a dead-lettered row is
    not among the failed ones. *)
Theorem metrics_partition (db : DB) :
  let m := GetMetrics db in
  FailedJobs m
    = Z.of_nat (length (filter (λ r, status r = StatusFailed
                                     ∧ retry_count r < max_retries r) db))
  ∧ DLQJobs m = Z.of_nat (length (filter DeadLettered db))
  ∧ TotalJobs m = Z.of_nat (length db)
  ∧ PendingJobs m + RunningJobs m + CompletedJobs m + FailedJobs m + DLQJobs m
    = TotalJobs m.
Proof.
  simpl. repeat split.
  - apply count_where_filter. intros r.
    by rewrite andb_true_iff, bool_decide_eq_true, Z.ltb_lt.
  - apply count_where_filter. intros r. unfold DeadLettered.
    by rewrite andb_true_iff, bool_decide_eq_true, Z.leb_le.
  - unfold count_where. f_equal. induction db as [|r db IH]; simpl; congruence.
  - induction db as [|r db IH]; [done|].
    rewrite !count_where_cons, <- IH.
    destruct (status r), (Z.ltb_spec (retry_count r) (max_retries r)),
      (Z.leb_spec (max_retries r) (retry_count r)); simpl; lia.
Qed.

End metrics.

(** ** Job lookup *)

Section lookup.

(** C9 (defect).  [GetJobStatus] answers every error of [GetJobByID]
    alike: a failure of the driver is reported as 404 "Job not found",
    the very answer given for an id that is not in the store, and never
    as 500.  The other handlers of the package answer a store failure
    with 500, and the worker tells [sql.ErrNoRows] from other errors. *)
Theorem GetJobStatus_reply_collapses_errors :
  GetJobStatus_reply (inr (ErrDriver "database is locked"))
    = Error StatusNotFound "Job not found"
  ∧ GetJobStatus_reply (inr ErrNoRows) = Error StatusNotFound "Job not found"
  ∧ GetJobStatus (NewServer []) "job-1" = Error StatusNotFound "Job not found"
  ∧ ∀ err, GetJobStatus_reply (inr err) ≠ Error StatusInternalServerError "Internal server error".
Proof. repeat split. by intros err. Qed.

End lookup.

(** ** The worker: outcome of a failed execution *)

Section failure.
Context {env : Environment}.

Lemma wrap64_small (x : Z) : minInt64 <= x <= maxInt64 → wrap64 x = x.
Proof.
  unfold wrap64, minInt64, maxInt64. intros Hx.
  rewrite Z.mod_small; lia.
Qed.

Lemma update_where_id_ids (set : Row → Row) (jobID : string) (db : DB) :
  (∀ r, id (set r) = id r) →
  id <$> update_where_id set jobID db = id <$> db.
Proof.
  intros Hid. unfold update_where_id. rewrite <- list_fmap_compose.
  apply list_fmap_ext. intros _ r _. simpl. by case_match.
Qed.

Lemma update_where_id_pk_unique (set : Row → Row) (jobID : string) (db : DB) :
  (∀ r, id (set r) = id r) →
  pk_unique db → pk_unique (update_where_id set jobID db).
Proof. intros Hid. unfold pk_unique. by rewrite update_where_id_ids. Qed.

(** A lease on a store with unique ids, row by row. *)
Lemma LeaseJob_row (db db1 : DB) (leaseUntil now : Time) (job : Job) :
  pk_unique db →
  LeaseJob db leaseUntil now = (db1, inl job) →
  ∃ i r, db !! i = Some r ∧ eligible now r = true
    ∧ job = leased_job leaseUntil r
    ∧ db1 !! i = Some (set_lease leaseUntil now r)
    ∧ (∀ j r', j ≠ i → db !! j = Some r' → db1 !! j = Some r')
    ∧ pk_unique db1.
Proof.
  intros Hpk Hlease.
  destruct (LeaseJob_inl _ _ _ _ _ Hlease) as (r & Hin & Hel & _ & -> & ->).
  apply list_elem_of_lookup in Hin as [i Hi].
  destruct (update_where_id_row (set_lease leaseUntil now) (id r) db i r Hpk Hi
              eq_refl) as [Hrow Hothers].
  exists i, r. repeat split; try done.
  by apply update_where_id_pk_unique.
Qed.

(** C2, as the code has it.  When the execution of a claimed job fails,
    the worker raises the [RetryCount] of its copy of the job by exactly
    one and writes one update to the job's row, which leaves it Failed
    with the lease cleared.  If the raised count has reached
    [MaxRetries], the row carries the message "Max retries exceeded -
    moved to DLQ"; otherwise it carries the raised count and the message
    "Job failed - will retry", and its [retry_count] is below its
    [max_retries].  No other row changes during the tick. *)
Theorem failed_execution_recorded (db db1 : DB) (now tLease tDone tUpdate : Time)
    (job : Job) :
  pk_unique db →
  LeaseJob db (Add now leaseDuration) tLease = (db1, inl job) →
  executeJob job tDone = false →
  minInt64 <= RetryCount job < maxInt64 →
  let db2 := processNextJob db now tLease tDone tUpdate in
  RetryCount (count_failure job) = RetryCount job + 1
  ∧ ∃ i r0 r2,
      db !! i = Some r0 ∧ id r0 = ID job ∧ db2 !! i = Some r2
      ∧ id r2 = ID job
      ∧ status r2 = StatusFailed
      ∧ leased_until r2 = None
      ∧ updated_at r2 = tUpdate
      ∧ max_retries r2 = MaxRetries job
      ∧ (if decide (MaxRetries job <= RetryCount job + 1)
         then error_message r2 = Some "Max retries exceeded - moved to DLQ"
         else retry_count r2 = RetryCount job + 1
              ∧ error_message r2 = Some "Job failed - will retry"
              ∧ retry_count r2 < max_retries r2)
      ∧ ∀ j r', j ≠ i → db !! j = Some r' → db2 !! j = Some r'.
Proof.
  intros Hpk Hlease Hfail Hrange db2.
  assert (Hinc : RetryCount (count_failure job) = RetryCount job + 1).
  { simpl. apply wrap64_small. unfold minInt64, maxInt64 in *. lia. }
  split; [done|].
  assert (Hdb2 : db2 = acknowledge db1 job false tUpdate).
  { unfold db2, processNextJob. by rewrite Hlease, Hfail. }
  destruct (LeaseJob_row _ _ _ _ _ Hpk Hlease)
    as (i & r & Hi & _ & -> & Hi1 & Hothers & Hpk1).
  set (r1 := set_lease (Add now leaseDuration) tLease r) in *.
  exists i, r. rewrite Hdb2. unfold acknowledge. rewrite Hinc.
  cbn [count_failure leased_job ID MaxRetries RetryCount].
  destruct (Z.leb_spec (max_retries r) (retry_count r + 1)) as [Hdlq|Hretry];
    case_decide; try lia.
  - destruct (update_where_id_row
                (set_status StatusFailed tUpdate
                   (nullString "Max retries exceeded - moved to DLQ"))
                (id r) db1 i r1 Hpk1 Hi1 eq_refl) as [Hrow Hrest].
    eexists. split; [done|]. split; [done|]. split; [exact Hrow|].
    repeat split; try done.
    intros j r' Hne Hj. apply Hrest; [done|]. by apply Hothers.
  - destruct (update_where_id_row
                (set_retry (retry_count r + 1) tUpdate "Job failed - will retry")
                (id r) db1 i r1 Hpk1 Hi1 eq_refl) as [Hrow Hrest].
    eexists. split; [done|]. split; [done|]. split; [exact Hrow|].
    repeat split; try done.
    intros j r' Hne Hj. apply Hrest; [done|]. by apply Hothers.
Qed.

(** The defect behind C1, for every store: when the raised count first
    reaches [MaxRetries], the update written is [UpdateJobStatus], which
    does not set [retry_count]; the row keeps the count it had, stays
    short of its budget, and is eligible at every later instant. *)
Lemma dlq_branch_leaves_row_eligible (db db1 : DB)
    (now tLease tDone tUpdate : Time) (job : Job) :
  pk_unique db →
  LeaseJob db (Add now leaseDuration) tLease = (db1, inl job) →
  executeJob job tDone = false →
  minInt64 <= RetryCount job < MaxRetries job →
  MaxRetries job <= RetryCount job + 1 →
  MaxRetries job <= maxInt64 →
  ∃ i r2, processNextJob db now tLease tDone tUpdate !! i = Some r2
    ∧ id r2 = ID job
    ∧ retry_count r2 = RetryCount job
    ∧ ¬ DeadLettered r2
    ∧ ∀ later, Eligible later r2.
Proof.
  intros Hpk Hlease Hfail Hrange Hdlq Hmax.
  destruct (LeaseJob_row _ _ _ _ _ Hpk Hlease)
    as (i & r & Hi & _ & -> & Hi1 & _ & Hpk1).
  cbn [leased_job ID MaxRetries RetryCount] in *.
  unfold processNextJob. rewrite Hlease, Hfail. unfold acknowledge.
  cbn [count_failure leased_job ID MaxRetries RetryCount].
  rewrite wrap64_small by (unfold minInt64, maxInt64 in *; lia).
  destruct (Z.leb_spec (max_retries r) (retry_count r + 1)); [|lia].
  destruct (update_where_id_row
              (set_status StatusFailed tUpdate
                 (nullString "Max retries exceeded - moved to DLQ"))
              (id r) db1 i _ Hpk1 Hi1 eq_refl) as [Hrow _].
  eexists i, _. split; [exact Hrow|]. simpl. repeat split.
  - intros [_ Hle]. simpl in Hle. lia.
  - intros later. right; right. simpl. split; [done|lia].
Qed.

(** C1 (defect).  A job with [max_retries = 1] is submitted, claimed,
    and fails.  The worker takes its DLQ branch, yet the row it leaves is
    Failed with [retry_count = 0 < 1 = max_retries]: the dead-letter
    count of the metrics stays 0, and the next [LeaseJob] hands the same
    job out again. *)
Theorem dead_letter_transition_claimed_again :
  let st := run init one_failure in
  db (server st)
    = [ set_status StatusFailed (15 * Second)
          (Some "Max retries exceeded - moved to DLQ") one_shot_row ]
  ∧ retry_count <$> db (server st) = [0]
  ∧ max_retries <$> db (server st) = [1]
  ∧ DLQJobs (GetMetrics (db (server st))) = 0
  ∧ ∃ db' job,
      LeaseJob (db (server st)) (Add (20 * Second) leaseDuration) (20 * Second)
        = (db', inl job)
      ∧ ID job = id one_shot_row.
Proof.
  vm_compute. repeat split. eexists _, _. split; reflexivity.
Qed.

End failure.

Section failure_cases.
Existing Instance plain.

(** A pending job with two retries left fails once: the worker takes the
    retry branch. *)
Lemma failed_execution_recorded_witness :
  ∃ r2, processNextJob [default_row] (10 * Second) (10 * Second)
          (15 * Second) (15 * Second) !! 0%nat = Some r2
    ∧ status r2 = StatusFailed
    ∧ retry_count r2 = 1
    ∧ error_message r2 = Some "Job failed - will retry".
Proof.
  assert (Hpk : pk_unique [default_row]).
  { unfold pk_unique. simpl. apply NoDup_singleton. }
  assert (Hrange : minInt64 <= 0 < maxInt64) by (split; reflexivity || discriminate).
  destruct (failed_execution_recorded [default_row] _ (10 * Second) (10 * Second)
              (15 * Second) (15 * Second) _ Hpk eq_refl eq_refl Hrange)
    as (_ & i & r0 & r2 & Hi & _ & Hi2 & _ & Hst & _ & _ & _ & Hbranch & _).
  destruct i as [|i]; [|by destruct i].
  exists r2. split; [exact Hi2|]. split; [exact Hst|].
  simpl in Hbranch. destruct Hbranch as (Hrc & Hmsg & _). by split.
Defined.

(** C2 fails as worded.  A pending job with [max_retries = 1] is
    claimed and its execution fails: the raised count is 1 and the worker
    takes the DLQ branch, but the row it leaves has [retry_count = 0],
    not [max_retries], and the message "Max retries exceeded - moved to
    DLQ". *)
Lemma failure_not_recorded_as_specified :
  ¬ failure_recorded_as_specified [one_shot_row]
      (10 * Second) (10 * Second) (15 * Second) (15 * Second).
Proof.
  intros Hspec.
  destruct (Hspec _ _ eq_refl eq_refl
              (set_status StatusFailed (15 * Second)
                 (Some "Max retries exceeded - moved to DLQ")
                 (set_lease (Add (10 * Second) leaseDuration) (10 * Second)
                    one_shot_row)))
    as [_ Hrow]; [by left|done|].
  simpl in Hrow. by destruct Hrow as [[=] _].
Qed.

End failure_cases.

(** ** Submission *)

Section submission.

Lemma find_snoc {A} (p : A → bool) (l : list A) (x : A) :
  find p (l ++ [x]) = match find p l with
                      | Some y => Some y
                      | None => if p x then Some x else None
                      end.
Proof. induction l as [|y l IH]; simpl; [done|]. by destruct (p y). Qed.

Lemma find_none_iff {A} (p : A → bool) (l : list A) :
  find p l = None ↔ ∀ x, x ∈ l → p x = false.
Proof.
  split.
  - intros Hnone x Hx. apply (find_none p l Hnone). by rewrite <- list_elem_of_In.
  - intros Hall. induction l as [|y l IH]; simpl; [done|].
    rewrite (Hall y) by by left. apply IH. intros x Hx. apply Hall. by right.
Qed.

Lemma existsb_false_iff {A} (p : A → bool) (l : list A) :
  existsb p l = false ↔ ∀ x, x ∈ l → p x = false.
Proof.
  induction l as [|y l IH]; simpl.
  - split; [|done]. intros _ x Hx. by apply not_elem_of_nil in Hx.
  - rewrite orb_false_iff, IH. split.
    + intros [Hy Hl] x [->|Hx]%elem_of_cons; auto.
    + intros Hall. split; [apply Hall; by left|]. intros x Hx. apply Hall. by right.
Qed.

Lemma nullString_Some (key : string) : key ≠ EmptyString → nullString key = Some key.
Proof. unfold nullString. by destruct (String.eqb_spec key EmptyString). Qed.

Lemma scanJob_inserted_row (req : JobSubmitRequest) (clk : SubmitClock) :
  scanJob (inserted_row (new_job req clk)) = new_job req clk.
Proof.
  unfold scanJob, inserted_row, new_job; simpl. f_equal.
  unfold nullString. by destruct (String.eqb_spec (req_IdempotencyKey req) EmptyString).
Qed.

(** Under a key, the lookup fails only when no row carries the key. *)
Lemma GetJobByIdempotencyKey_inr (db : DB) (key : string) (err : error) :
  GetJobByIdempotencyKey db key = inr err →
  ∀ r, r ∈ db → has_key key r = false.
Proof.
  unfold GetJobByIdempotencyKey, GetJobByID.
  destruct (find (has_key key) db) as [r|] eqn:Hkey.
  - destruct (find (λ r0, String.eqb (id r0) (id r)) db) as [r'|] eqn:Hid; [done|].
    intros _.
    apply find_some in Hkey as [Hin _].
    apply (find_none _ _ Hid) in Hin. simpl in Hin. by rewrite String.eqb_refl in Hin.
  - intros _. by apply find_none_iff.
Qed.

(** The store after a submission: as before, or longer by the row of
    the new job, whose id and key were both free. *)
Lemma SubmitJob_db (s : Server) (method : string) (body : option JobSubmitRequest)
    (clk : SubmitClock) :
  let s' := fst (SubmitJob s method body clk) in
  db s' = db s
  ∨ ∃ req, body = Some req
      ∧ db s' = (db s ++ [inserted_row (new_job req clk)])%list
      ∧ (∀ r, r ∈ db s → id r ≠ ID (new_job req clk))
      ∧ (∀ r, r ∈ db s → req_IdempotencyKey req ≠ EmptyString →
           has_key (req_IdempotencyKey req) r = false)
      ∧ snd (SubmitJob s method body clk) = JSON StatusCreated (new_job req clk).
Proof.
  unfold SubmitJob.
  destruct (negb _); [by left|]. destruct body as [req|]; [|by left].
  destruct (_ || _); [by left|].
  destruct (ratelimit.Allow _ _ _) as [ok rl]. cbn [db rateLimiter].
  destruct ok; cbn [negb]; [|by left].
  destruct (5 <=? _); [by left|].
  destruct (existing_job _ _) as [j|] eqn:Hex; [by left|].
  unfold InsertJob. destruct (existsb _ _) eqn:Hid; [by left|].
  right. exists req. cbn [fst snd db]. repeat split; try done.
  - intros r Hr Heq. apply existsb_false_iff with (x := r) in Hid; [|done].
    simpl in Hid. rewrite Heq in Hid. by rewrite String.eqb_refl in Hid.
  - intros r Hr Hkey. unfold existing_job in Hex.
    destruct (String.eqb_spec (req_IdempotencyKey req) EmptyString); [done|].
    destruct (GetJobByIdempotencyKey _ _) as [|err] eqn:Hget; [done|].
    by apply (GetJobByIdempotencyKey_inr _ _ _ Hget).
Qed.

Lemma not_has_key_omap (db : DB) (key : string) :
  (∀ r, r ∈ db → has_key key r = false) → key ∉ omap idempotency_key db.
Proof.
  intros Hnone (r & Hr & Hk)%list_elem_of_omap.
  specialize (Hnone r Hr). unfold has_key in Hnone. rewrite Hk in Hnone.
  by rewrite String.eqb_refl in Hnone.
Qed.

(** No submission gives a second row to a key. *)
Lemma SubmitJob_key_unique (s : Server) (method : string)
    (body : option JobSubmitRequest) (clk : SubmitClock) :
  key_unique (db s) → key_unique (db (fst (SubmitJob s method body clk))).
Proof.
  intros Hku.
  destruct (SubmitJob_db s method body clk) as [->|(req & _ & -> & _ & Hfree & _)];
    [done|].
  unfold key_unique in *. rewrite omap_app. simpl.
  unfold nullString. destruct (String.eqb_spec (req_IdempotencyKey req) EmptyString) as [|Hne].
  - by rewrite app_nil_r.
  - apply NoDup_app. split; [done|]. split; [|apply NoDup_singleton].
    intros k Hk ->%list_elem_of_singleton. revert Hk.
    apply not_has_key_omap. intros r Hr. by apply Hfree.
Qed.

(** The job a submission is answered with, new or found, is the job on
    file under the request's key from then on. *)
Lemma SubmitJob_answer_on_file (s s' : Server) (req : JobSubmitRequest)
    (clk : SubmitClock) (code : Z) (job : Job) :
  req_IdempotencyKey req ≠ EmptyString →
  SubmitJob s "POST" (Some req) clk = (s', JSON code job) →
  GetJobByIdempotencyKey (db s') (req_IdempotencyKey req) = inl job.
Proof.
  intros Hkey. unfold SubmitJob. cbn [String.eqb Ascii.eqb Bool.eqb negb].
  destruct (_ || _); [done|].
  destruct (ratelimit.Allow _ _ _) as [ok rl]. cbn [db rateLimiter].
  destruct ok; cbn [negb]; [|done].
  destruct (5 <=? _); [done|].
  destruct (existing_job _ _) as [j|] eqn:Hex.
  - intros [= <- <- <-]. cbn [db]. unfold existing_job in Hex.
    destruct (String.eqb_spec (req_IdempotencyKey req) EmptyString); [done|].
    by destruct (GetJobByIdempotencyKey _ _) as [j'|]; [injection Hex as ->|].
  - unfold InsertJob. destruct (existsb _ _) eqn:Hid; [done|].
    intros [= <- <- <-]. cbn [db].
    unfold existing_job in Hex.
    destruct (String.eqb_spec (req_IdempotencyKey req) EmptyString); [done|].
    destruct (GetJobByIdempotencyKey (db s) _) as [|err] eqn:Hget; [done|].
    pose proof (GetJobByIdempotencyKey_inr _ _ _ Hget) as Hfree.
    unfold GetJobByIdempotencyKey, GetJobByID.
    rewrite find_snoc. apply find_none_iff in Hfree. rewrite Hfree.
    unfold has_key at 1. cbn [inserted_row idempotency_key new_job IdempotencyKey].
    rewrite nullString_Some, String.eqb_refl by done.
    rewrite find_snoc.
    replace (find _ (db s)) with (@None Row).
    + cbn [inserted_row id]. rewrite String.eqb_refl. f_equal.
      apply scanJob_inserted_row.
    + symmetry. apply find_none_iff. by apply existsb_false_iff.
Qed.

(** C4, as the code has it.  A valid submission under an idempotency
    key that has a job on file passes the admission gates first: the
    rate gate is called, and takes a token when it lets the call pass.
    When both gates admit, the answer is 200 with the job on file; when
    the rate gate or the concurrency gate refuses, the answer is 429.  In
    every case the store is left as it was: no row is inserted, and the
    job on file stays the one found under the key.  Consequently the job
    that an earlier submission under the same key was answered with is
    this same job, and no submission whatever gives a key a second
    row. *)
Theorem duplicate_submission_after_admission (s : Server)
    (req : JobSubmitRequest) (clk : SubmitClock) (existingJob : Job) :
  req_TenantID req ≠ EmptyString →
  req_Payload req ≠ EmptyString →
  req_IdempotencyKey req ≠ EmptyString →
  GetJobByIdempotencyKey (db s) (req_IdempotencyKey req) = inl existingJob →
  let '(ok, rl) := ratelimit.Allow (rateLimiter s) (req_TenantID req) (tAllow clk) in
  let '(s', resp) := SubmitJob s "POST" (Some req) clk in
  (db s' = db s ∧ rateLimiter s' = rl)
  ∧ (ok = true →
     ratelimit.tokens_of rl (req_TenantID req)
     = (if ratelimit.must_reset (rateLimiter s) (req_TenantID req) (tAllow clk)
        then ratelimit.maxJobsPerMin (rateLimiter s)
        else ratelimit.tokens_of (rateLimiter s) (req_TenantID req)) - 1)
  ∧ resp = (if ok
            then if 5 <=? GetRunningJobsCount (db s) (req_TenantID req)
                 then Error StatusTooManyRequests "Concurrent job limit exceeded (max 5)"
                 else JSON StatusOK existingJob
            else Error StatusTooManyRequests "Rate limit exceeded")
  ∧ GetJobByIdempotencyKey (db s') (req_IdempotencyKey req) = inl existingJob
  ∧ (∀ s0 req0 clk0 code job0,
       req_IdempotencyKey req0 = req_IdempotencyKey req →
       SubmitJob s0 "POST" (Some req0) clk0 = (s, JSON code job0) →
       job0 = existingJob ∧ ID job0 = ID existingJob)
  ∧ (∀ method body clk', key_unique (db s) →
       key_unique (db (fst (SubmitJob s method body clk')))).
Proof.
  intros Htenant Hpayload Hkey Hfile.
  destruct (ratelimit.Allow _ _ _) as [ok rl] eqn:Hallow.
  destruct (SubmitJob _ _ _ _) as [s' resp] eqn:Hsubmit.
  assert (Hconsumed : ok = true →
     ratelimit.tokens_of rl (req_TenantID req)
     = (if ratelimit.must_reset (rateLimiter s) (req_TenantID req) (tAllow clk)
        then ratelimit.maxJobsPerMin (rateLimiter s)
        else ratelimit.tokens_of (rateLimiter s) (req_TenantID req)) - 1).
  { intros ->. revert Hallow. unfold ratelimit.Allow.
    destruct (ratelimit.must_reset _ _ _).
    - rewrite tokens_of_reset. case_match; [|done].
      intros [= <-]. by rewrite tokens_of_consume, tokens_of_reset.
    - case_match; [|done]. intros [= <-]. by rewrite tokens_of_consume. }
  assert (Hlinks : ∀ s0 req0 clk0 code job0,
       req_IdempotencyKey req0 = req_IdempotencyKey req →
       SubmitJob s0 "POST" (Some req0) clk0 = (s, JSON code job0) →
       job0 = existingJob ∧ ID job0 = ID existingJob).
  { intros s0 req0 clk0 code job0 Hsame Hfirst.
    apply SubmitJob_answer_on_file in Hfirst; [|by rewrite Hsame].
    rewrite Hsame, Hfile in Hfirst. by injection Hfirst as ->. }
  assert (Hex : existing_job (db s) (req_IdempotencyKey req) = Some existingJob).
  { unfold existing_job. destruct (String.eqb_spec (req_IdempotencyKey req) EmptyString); [done|].
    by rewrite Hfile. }
  assert (Hunique : ∀ method body clk', key_unique (db s) →
       key_unique (db (fst (SubmitJob s method body clk')))).
  { intros. by apply SubmitJob_key_unique. }
  unfold SubmitJob in Hsubmit. cbn [String.eqb Ascii.eqb Bool.eqb negb] in Hsubmit.
  destruct (String.eqb_spec (req_TenantID req) EmptyString); [done|].
  destruct (String.eqb_spec (req_Payload req) EmptyString); [done|].
  cbn [orb] in Hsubmit. rewrite Hallow in Hsubmit. cbn [db rateLimiter] in Hsubmit.
  rewrite Hex in Hsubmit.
  destruct ok; cbn [negb] in Hsubmit; [destruct (5 <=? _)|];
    injection Hsubmit as <- <-; cbn [db rateLimiter];
    (split; [done|]); (split; [done|]); (split; [done|]); (split; [done|]);
    (split; [exact Hlinks|exact Hunique]).
Qed.

(** A first-time caller repeats a key that is on file: admitted, and
    answered with the job on file. *)
Lemma duplicate_submission_after_admission_witness :
  let s := NewServer [default_row] in
  snd (SubmitJob s "POST" (Some repeat_request) (clock_at (1 * Second)))
    = JSON StatusOK (scanJob default_row)
  ∧ db (fst (SubmitJob s "POST" (Some repeat_request) (clock_at (1 * Second)))) = db s.
Proof.
  intros s.
  pose proof (duplicate_submission_after_admission s repeat_request
                (clock_at (1 * Second)) (scanJob default_row)
                ltac:(discriminate) ltac:(discriminate) ltac:(discriminate) eq_refl) as H.
  destruct (ratelimit.Allow _ _ _) as [ok rl] eqn:Hallow.
  destruct (SubmitJob _ _ _ _) as [s' resp].
  destruct H as ((Hdb & _) & _ & Hresp & _).
  injection Hallow as <- _. cbn [fst snd]. split; [exact Hresp|exact Hdb].
Defined.

(** C4 fails as worded.  The key "k" has a job on file and its tenant
    has spent the ten tokens of the running window: the repeated
    submission is refused by the rate gate with 429 instead of being
    answered with the job on file. *)
Lemma duplicate_not_noop :
  ¬ duplicate_is_noop {| db := [default_row]; rateLimiter := spent_limiter |}
      repeat_request (clock_at (1 * Second)).
Proof.
  intros Hnoop.
  specialize (Hnoop (scanJob default_row) ltac:(discriminate) eq_refl).
  apply (f_equal snd) in Hnoop. vm_compute in Hnoop. discriminate.
Qed.

End submission.

(** ** The retry bound as an invariant of the running process *)

Section retry_bound.
Context {env : Environment}.

Lemma retry_bounded_update (set : Row → Row) (jobID : string) (db : DB) :
  retry_bounded db →
  (∀ r, r ∈ db → id r = jobID → retry_count (set r) <= max_retries (set r)) →
  retry_bounded (update_where_id set jobID db).
Proof.
  unfold retry_bounded, update_where_id. rewrite !Forall_forall.
  intros Hb Hset r' (r & -> & Hr)%list_elem_of_fmap.
  destruct (String.eqb_spec (id r) jobID); [by apply Hset|by apply Hb].
Qed.

(** An update that keeps [id] and [max_retries] keeps every job that a
    worker holds known to the store. *)
Lemma known_after_update (set : Row → Row) (jobID : string) (db : DB) (job : Job) :
  (∀ r, id (set r) = id r ∧ max_retries (set r) = max_retries r) →
  (∃ r, r ∈ db ∧ id r = ID job ∧ max_retries r = MaxRetries job) →
  ∃ r, r ∈ update_where_id set jobID db
       ∧ id r = ID job ∧ max_retries r = MaxRetries job.
Proof.
  intros Hset (r & Hr & Hid & Hmax).
  exists (if String.eqb (id r) jobID then set r else r). split.
  - unfold update_where_id. apply list_elem_of_fmap. by exists r.
  - destruct (Hset r) as [Hid' Hmax']. case_match; [split; congruence|done].
Qed.

Lemma set_status_keeps (st : StatusValue) (now : Time) (msg : option string) (r : Row) :
  id (set_status st now msg r) = id r
  ∧ max_retries (set_status st now msg r) = max_retries r.
Proof. done. Qed.

Lemma set_retry_keeps (n : Z) (now : Time) (msg : string) (r : Row) :
  id (set_retry n now msg r) = id r
  ∧ max_retries (set_retry n now msg r) = max_retries r.
Proof. done. Qed.

Lemma set_lease_keeps (leaseUntil now : Time) (r : Row) :
  id (set_lease leaseUntil now r) = id r
  ∧ max_retries (set_lease leaseUntil now r) = max_retries r.
Proof. done. Qed.

Lemma well_formed_init : well_formed init.
Proof.
  repeat split.
  - apply NoDup_nil_2.
  - apply Forall_nil_2.
  - apply Forall_nil_2.
Qed.

(** What [acknowledge] writes keeps the three parts of the invariant,
    for a job the store knows. *)
Lemma acknowledge_well_formed (db : DB) (job : Job) (success : bool) (now : Time) :
  pk_unique db → retry_bounded db →
  (∃ r, r ∈ db ∧ id r = ID job ∧ max_retries r = MaxRetries job) →
  pk_unique (acknowledge db job success now)
  ∧ retry_bounded (acknowledge db job success now)
  ∧ ∀ job', (∃ r, r ∈ db ∧ id r = ID job' ∧ max_retries r = MaxRetries job') →
      ∃ r, r ∈ acknowledge db job success now
           ∧ id r = ID job' ∧ max_retries r = MaxRetries job'.
Proof.
  intros Hpk Hb (r & Hr & Hid & Hmax). unfold acknowledge.
  destruct success; [|destruct (Z.leb_spec (MaxRetries (count_failure job))
                                          (RetryCount (count_failure job)))].
  - split; [by apply update_where_id_pk_unique|]. split.
    + apply retry_bounded_update; [done|]. intros r' Hr' _. simpl.
      unfold retry_bounded in Hb. rewrite Forall_forall in Hb. by apply Hb.
    + intros job'. apply known_after_update, set_status_keeps.
  - split; [by apply update_where_id_pk_unique|]. split.
    + apply retry_bounded_update; [done|]. intros r' Hr' _. simpl.
      unfold retry_bounded in Hb. rewrite Forall_forall in Hb. by apply Hb.
    + intros job'. apply known_after_update, set_status_keeps.
  - split; [by apply update_where_id_pk_unique|]. split.
    + apply retry_bounded_update; [done|]. intros r' Hr' Hid'. simpl.
      assert (r' = r) as ->.
      { apply (pk_unique_inj db); try done. simpl in Hid'. congruence. }
      rewrite Hmax. simpl in *. lia.
    + intros job'. apply known_after_update, set_retry_keeps.
Qed.

(** Every step keeps the invariant, unless it is a submission that asks
    for a negative budget. *)
Lemma run_event_well_formed (st : State) (ev : Event) :
  well_formed st → no_negative_budget ev → well_formed (run_event st ev).
Proof.
  intros (Hpk & Hb & Hknown) Hev.
  destruct ev as [method body clk|now tLease|i tDone tUpdate]; simpl.
  - (* a submission *)
    unfold well_formed, leases_known; simpl.
    destruct (SubmitJob_db (server st) method body clk)
      as [Heq|(req & -> & Heq & Hfresh & _ & _)]; simpl in Heq; rewrite Heq.
    { done. }
    split; [|split].
    + unfold pk_unique in *. rewrite fmap_app. apply NoDup_app.
      split; [done|]. split; [|apply NoDup_singleton].
      intros k (r & Hk & Hr)%list_elem_of_fmap Hk'%list_elem_of_singleton.
      apply (Hfresh r Hr). by rewrite <- Hk, Hk'.
    + apply Forall_app. split; [done|]. apply Forall_singleton. simpl.
      simpl in Hev. destruct (Z.eqb_spec (req_MaxRetries req) 0); lia.
    + eapply Forall_impl; [exact Hknown|]. simpl.
      intros job (r & Hr & Hid & Hmax). exists r.
      split; [|done]. apply elem_of_app. by left.
  - (* a lease *)
    destruct (LeaseJob _ _ _) as [db1 [job|err]] eqn:Hlease; [|done].
    destruct (LeaseJob_inl _ _ _ _ _ Hlease) as (r & Hr & _ & _ & -> & ->).
    unfold well_formed, leases_known; simpl.
    split; [by apply update_where_id_pk_unique|]. split.
    + apply retry_bounded_update; [done|]. intros r' Hr' _. simpl.
      unfold retry_bounded in Hb. rewrite Forall_forall in Hb. by apply Hb.
    + apply Forall_app. split.
      * eapply Forall_impl; [exact Hknown|]. simpl. intros job.
        apply known_after_update, set_lease_keeps.
      * apply Forall_singleton.
        apply known_after_update; [apply set_lease_keeps|]. by exists r.
  - (* the update of a worker that holds a job *)
    destruct (leased st !! i) as [job|] eqn:Hjob; [|done].
    unfold leases_known in Hknown.
    pose proof (Forall_lookup_1 _ _ _ _ Hknown Hjob) as Hrow. simpl in Hrow.
    destruct (acknowledge_well_formed (db (server st)) job (executeJob job tDone)
                tUpdate Hpk Hb Hrow) as (Hpk' & Hb' & Hknown').
    unfold well_formed, leases_known; simpl.
    split; [done|]. split; [done|].
    apply Forall_forall. intros job' Hin. apply Hknown'.
    rewrite Forall_forall in Hknown. apply Hknown.
    by apply (list_elem_of_delete_inv _ i).
Qed.

(** The invariant holds along every run of the process from its start. *)
Lemma run_well_formed (evs : list Event) :
  Forall no_negative_budget evs → well_formed (run init evs).
Proof.
  unfold run. generalize well_formed_init. generalize init.
  induction evs as [|ev evs IH]; intros st Hst Hevs; simpl; [done|].
  apply Forall_cons in Hevs as [Hev Hevs].
  apply IH; [|done]. by apply run_event_well_formed.
Qed.

(** The row of a job that a submission has just created. *)
Lemma SubmitJob_created_row (s s' : Server) (method : string)
    (req : JobSubmitRequest) (clk : SubmitClock) (job : Job) :
  SubmitJob s method (Some req) clk = (s', JSON StatusCreated job) →
  ∃ r, db s' = (db s ++ [r])%list
    ∧ id r = ID job
    ∧ status r = StatusPending
    ∧ retry_count r = 0
    ∧ max_retries r = (if req_MaxRetries req =? 0 then 3 else req_MaxRetries req).
Proof.
  intros Hsubmit.
  destruct (SubmitJob_db s method (Some req) clk)
    as [Heq|(req' & [= <-] & Heq & _ & _ & Hresp)];
    rewrite Hsubmit in *; simpl in *.
  - exfalso. revert Hsubmit. unfold SubmitJob.
    repeat case_match; try done.
    intros [= <- _]. simpl in Heq.
    match goal with H : InsertJob _ _ = _ |- _ =>
      unfold InsertJob in H; destruct (existsb _ _); [done|];
      injection H as <- end.
    apply (f_equal length) in Heq. rewrite length_app in Heq. simpl in Heq. lia.
  - injection Hresp as ->. eexists. split; [exact Heq|]. by simpl.
Qed.

(** C7, as the code has it.  Started from a state in which ids are
    unique, every row has [retry_count <= max_retries], and every job a
    worker holds is a row of the store, each step of the process (a
    submission, a lease, the update a worker writes for a job it holds,
    at any later time and in any order with the others) leads to such a
    state again, provided a submission does not ask for a negative
    [max_retries].  A row created by a submission starts Pending with
    [retry_count = 0] and with the requested [max_retries], or 3 when the
    request carries zero or none, and so within the bound. *)
Theorem retry_bound_preserved (st : State) (ev : Event) :
  well_formed st →
  no_negative_budget ev →
  well_formed (run_event st ev)
  ∧ ∀ method req clk s' job,
      ev = Submit method (Some req) clk →
      SubmitJob (server st) method (Some req) clk = (s', JSON StatusCreated job) →
      ∃ r, db s' = (db (server st) ++ [r])%list
        ∧ id r = ID job
        ∧ status r = StatusPending
        ∧ retry_count r = 0
        ∧ max_retries r = (if req_MaxRetries req =? 0 then 3 else req_MaxRetries req)
        ∧ retry_count r <= max_retries r.
Proof.
  intros Hwf Hev. split; [by apply run_event_well_formed|].
  intros method req clk s' job -> Hsubmit.
  destruct (SubmitJob_created_row _ _ _ _ _ _ Hsubmit)
    as (r & Hdb & Hid & Hst & Hrc & Hmax).
  exists r. repeat split; try done.
  rewrite Hrc, Hmax. simpl in Hev.
  destruct (Z.eqb_spec (req_MaxRetries req) 0); lia.
Qed.

End retry_bound.

Section retry_bound_cases.
Existing Instance plain.

(** A job with one retry is submitted and claimed; the worker that holds
    it then writes the outcome of a failed execution. *)
Lemma retry_bound_preserved_witness :
  well_formed (run_event (run init (take 2 one_failure))
                 (Acknowledge 0 (15 * Second) (15 * Second))).
Proof.
  assert (Hwf : well_formed (run init (take 2 one_failure))).
  { apply run_well_formed. repeat constructor. discriminate. }
  exact (proj1 (retry_bound_preserved _ (Acknowledge 0 (15 * Second) (15 * Second))
                  Hwf I)).
Defined.

(** C7 fails as worded.  A request for [max_retries = -1] is accepted on
    an empty store, and its row starts with [retry_count = 0] above
    [max_retries = -1]. *)
Lemma negative_budget_breaks_retry_bound :
  ¬ submission_keeps_retry_bound (NewServer []) negative_request
      (clock_at (1 * Second)).
Proof.
  intros Hkeeps. specialize (Hkeeps (Forall_nil_2 _)).
  apply Forall_cons in Hkeeps as [Hrow _]. by apply Hrow.
Qed.

End retry_bound_cases.


(** * Further properties of the code *)

(** ** Insert and lookup *)

Section read_back.

Lemma find_by_id_fresh (db : DB) (jobID : string) :
  existsb (λ r, String.eqb (id r) jobID) db = false →
  find (λ r, String.eqb (id r) jobID) db = None.
Proof. intros Hfresh. apply find_none_iff. by apply existsb_false_iff. Qed.

Lemma find_by_id_unique (db : DB) (r : Row) :
  pk_unique db → r ∈ db → find (λ r', String.eqb (id r') (id r)) db = Some r.
Proof.
  intros Hpk Hr.
  destruct (find _ db) as [r'|] eqn:Hfind.
  - apply find_some in Hfind as [Hin Heq]. rewrite <- list_elem_of_In in Hin.
    apply String.eqb_eq in Heq. f_equal. by apply (pk_unique_inj db).
  - apply find_none_iff with (x := r) in Hfind; [|done].
    by rewrite String.eqb_refl in Hfind.
Qed.

Lemma scanJob_inserted_ReadBack (job : Job) : ReadBack job (scanJob (inserted_row job)).
Proof.
  unfold ReadBack, scanJob, inserted_row; simpl. repeat split.
  unfold nullString. by destruct (String.eqb_spec (IdempotencyKey job) EmptyString).
Qed.

(** X1.  An insert that succeeds can be read back.  The job found under
    the new id has every inserted field as it was given, no lease and no
    error message, whatever the inserted job carried in those two fields.
    When the job has an idempotency key that no earlier row carries, the
    lookup by key finds the same job.  Lookups of every other id answer
    as before the insert, and the table has grown by one row. *)
Theorem InsertJob_read_back (db db' : DB) (job : Job) :
  InsertJob db job = (db', None) →
  (∃ job', GetJobByID db' (ID job) = inl job' ∧ ReadBack job job')
  ∧ (IdempotencyKey job ≠ EmptyString →
     (∀ r, r ∈ db → idempotency_key r ≠ Some (IdempotencyKey job)) →
     ∃ job', GetJobByIdempotencyKey db' (IdempotencyKey job) = inl job'
             ∧ ReadBack job job')
  ∧ (∀ jobID, jobID ≠ ID job → GetJobByID db' jobID = GetJobByID db jobID)
  ∧ length db' = S (length db).
Proof.
  unfold InsertJob. destruct (existsb _ db) eqn:Hfresh; [done|].
  intros [= <-].
  assert (Hnew : GetJobByID (db ++ [inserted_row job]) (ID job)
                 = inl (scanJob (inserted_row job))).
  { unfold GetJobByID. rewrite find_snoc, find_by_id_fresh by done.
    simpl. by rewrite String.eqb_refl. }
  split; [|split; [|split]].
  - eexists. split; [exact Hnew|]. apply scanJob_inserted_ReadBack.
  - intros Hkey Hfree. eexists. split; [|apply scanJob_inserted_ReadBack].
    unfold GetJobByIdempotencyKey. rewrite find_snoc.
    replace (find (has_key (IdempotencyKey job)) db) with (@None Row).
    + unfold has_key at 1. cbn [inserted_row idempotency_key].
      rewrite nullString_Some, String.eqb_refl by done. exact Hnew.
    + symmetry. apply find_none_iff. intros r Hr. unfold has_key.
      specialize (Hfree r Hr). destruct (idempotency_key r) as [k|]; [|done].
      destruct (String.eqb_spec k (IdempotencyKey job)); congruence.
  - intros jobID Hne. unfold GetJobByID. rewrite find_snoc.
    destruct (find _ db); [done|]. simpl.
    destruct (String.eqb_spec (ID job) jobID); [congruence|done].
  - rewrite length_app. simpl. lia.
Qed.

(** A job that carries a lease and a message is inserted next to an
    older row. *)
Lemma InsertJob_read_back_witness :
  let job := {| ID := "job-9"; TenantID := "t1"; Payload := "p9";
                Status := StatusPending; IdempotencyKey := "k9";
                RetryCount := 0; MaxRetries := 3; CreatedAt := 9; UpdatedAt := 9;
                LeasedUntil := Some 99; ErrorMessage := "dropped";
                TraceID := "trace-9" |} in
  ∃ job', GetJobByID (fst (InsertJob [default_row] job)) "job-9" = inl job'
          ∧ ReadBack job job'.
Proof.
  intros job.
  exact (proj1 (InsertJob_read_back [default_row] _ job eq_refl)).
Defined.

(** X2.  [GetJobStatus] by cases, on a store with unique ids: without an
    id the answer is 400; with the id of a row it is 200 with that row as
    a job, a NULL key or message read as the empty string; with an id that
    no row has it is 404. *)
Theorem GetJobStatus_by_id (s : Server) (jobID : string) :
  pk_unique (db s) →
  (jobID = EmptyString →
   GetJobStatus s jobID = Error StatusBadRequest "job id is required")
  ∧ (jobID ≠ EmptyString →
     ∀ r, r ∈ db s → id r = jobID →
       GetJobStatus s jobID = JSON StatusOK (scanJob r)
       ∧ IdempotencyKey (scanJob r) = default EmptyString (idempotency_key r)
       ∧ ErrorMessage (scanJob r) = default EmptyString (error_message r))
  ∧ (jobID ≠ EmptyString →
     (∀ r, r ∈ db s → id r ≠ jobID) →
     GetJobStatus s jobID = Error StatusNotFound "Job not found").
Proof.
  intros Hpk. unfold GetJobStatus, GetJobByID. repeat split.
  - by intros ->.
  - destruct (String.eqb_spec jobID EmptyString); [done|]. subst jobID.
    by rewrite find_by_id_unique.
  - intros Hne Hnone. destruct (String.eqb_spec jobID EmptyString); [done|].
    replace (find _ (db s)) with (@None Row); [done|].
    symmetry. apply find_none_iff. intros r Hr.
    destruct (String.eqb_spec (id r) jobID); [|done]. by destruct (Hnone r Hr).
Qed.

Lemma GetJobStatus_by_id_witness :
  GetJobStatus (NewServer [default_row; one_shot_row]) "job-1000000002"
  = JSON StatusOK (scanJob one_shot_row).
Proof.
  assert (Hpk : pk_unique [default_row; one_shot_row]).
  { unfold pk_unique. simpl. apply NoDup_cons. split; [|apply NoDup_singleton].
    intros Hin%list_elem_of_singleton. discriminate. }
  destruct (GetJobStatus_by_id (NewServer [default_row; one_shot_row])
              "job-1000000002" Hpk) as (_ & Hfound & _).
  apply (Hfound ltac:(discriminate) one_shot_row); [|done].
  right. by left.
Defined.

End read_back.

(** ** Submission, case by case *)

Section submission_cases.

(** What an answer 201 says about the call. *)
Lemma SubmitJob_created (s s' : Server) (method : string) (req : JobSubmitRequest)
    (clk : SubmitClock) (job : Job) :
  SubmitJob s method (Some req) clk = (s', JSON StatusCreated job) →
  job = new_job req clk
  ∧ db s' = (db s ++ [inserted_row job])%list
  ∧ existsb (λ r, String.eqb (id r) (ID job)) (db s) = false
  ∧ ratelimit.Allow (rateLimiter s) (req_TenantID req) (tAllow clk)
    = (true, rateLimiter s').
Proof.
  unfold SubmitJob. destruct (negb _); [done|].
  destruct (_ || _); [done|].
  destruct (ratelimit.Allow _ _ _) as [ok rl]. cbn [db rateLimiter].
  destruct ok; cbn [negb]; [|done].
  destruct (5 <=? _); [done|].
  destruct (existing_job _ _); [done|].
  unfold InsertJob. destruct (existsb _ _) eqn:Hfresh; [done|].
  by intros [= <- <-].
Qed.

(** X3.  A job that [SubmitJob] has just created can be fetched by the id
    in the answer, and comes back exactly as it was answered. *)
Theorem submitted_job_can_be_fetched (s s' : Server) (method : string)
    (req : JobSubmitRequest) (clk : SubmitClock) (job : Job) :
  SubmitJob s method (Some req) clk = (s', JSON StatusCreated job) →
  GetJobStatus s' (ID job) = JSON StatusOK job
  ∧ Status job = StatusPending
  ∧ RetryCount job = 0.
Proof.
  intros (-> & Hdb & Hfresh & _)%SubmitJob_created.
  split; [|done].
  unfold GetJobStatus, GetJobByID. cbn [new_job ID String.append String.eqb Ascii.eqb
    Bool.eqb]. fold (ID (new_job req clk)).
  rewrite Hdb, find_snoc, find_by_id_fresh by done.
  cbn [inserted_row id]. rewrite String.eqb_refl. cbn [GetJobStatus_reply].
  by rewrite scanJob_inserted_row.
Qed.

Lemma submitted_job_can_be_fetched_witness :
  let s' := fst (SubmitJob (NewServer [default_row]) "POST" (Some one_shot_request)
                   (clock_at (1 * Second))) in
  GetJobStatus s' "job-1000000002"
  = JSON StatusOK (new_job one_shot_request (clock_at (1 * Second))).
Proof.
  intros s'.
  exact (proj1 (submitted_job_can_be_fetched (NewServer [default_row]) s' "POST"
                  one_shot_request (clock_at (1 * Second)) _ eq_refl)).
Defined.

Lemma job_id_of_instant (req req' : JobSubmitRequest) (clk clk' : SubmitClock) :
  ID (new_job req clk) = ID (new_job req' clk') ↔ tID clk = tID clk'.
Proof.
  unfold new_job, UnixNano; cbn [ID String.append]. split.
  - intros [= Heq]. by apply pretty_Z_inj in Heq.
  - by intros ->.
Qed.

(** X4.  Job ids are made from the clock alone: two new jobs have the
    same id exactly when their ids were stamped at the same nanosecond.  A
    submission stamped at the nanosecond of a job that was created before
    it, admitted by both gates and not a repeat of a key on file, is
    answered 500 "Failed to create job"; the store keeps its rows and the
    rate token of the call is spent. *)
Theorem SubmitJob_id_collision (s s1 : Server) (method : string)
    (req1 req2 : JobSubmitRequest) (clk1 clk2 : SubmitClock) (job1 : Job)
    (rl : ratelimit.RateLimiter) :
  SubmitJob s method (Some req1) clk1 = (s1, JSON StatusCreated job1) →
  tID clk2 = tID clk1 →
  req_TenantID req2 ≠ EmptyString →
  req_Payload req2 ≠ EmptyString →
  ratelimit.Allow (rateLimiter s1) (req_TenantID req2) (tAllow clk2) = (true, rl) →
  GetRunningJobsCount (db s1) (req_TenantID req2) < 5 →
  existing_job (db s1) (req_IdempotencyKey req2) = None →
  (∀ req req' clk clk',
     ID (new_job req clk) = ID (new_job req' clk') ↔ tID clk = tID clk')
  ∧ SubmitJob s1 "POST" (Some req2) clk2
    = ({| db := db s1; rateLimiter := rl |},
       Error StatusInternalServerError "Failed to create job").
Proof.
  intros (-> & Hdb & _ & _)%SubmitJob_created Hsame Htenant Hpayload Hallow Hquota Hkey.
  split; [apply job_id_of_instant|].
  unfold SubmitJob. cbn [String.eqb Ascii.eqb Bool.eqb negb].
  destruct (String.eqb_spec (req_TenantID req2) EmptyString); [done|].
  destruct (String.eqb_spec (req_Payload req2) EmptyString); [done|].
  cbn [orb]. rewrite Hallow. cbn [db rateLimiter negb].
  destruct (Z.leb_spec 5 (GetRunningJobsCount (db s1) (req_TenantID req2))); [lia|].
  rewrite Hkey. unfold InsertJob.
  replace (existsb _ (db s1)) with true; [done|].
  symmetry. rewrite Hdb, existsb_app. apply orb_true_iff. right. cbn [existsb].
  rewrite orb_false_r. apply String.eqb_eq. cbn [inserted_row id].
  by apply job_id_of_instant.
Qed.

(** Two tenants submit at the same nanosecond: the second call fails. *)
Lemma SubmitJob_id_collision_witness :
  let s1 := fst (SubmitJob (NewServer []) "POST" (Some one_shot_request)
                   (clock_at (1 * Second))) in
  snd (SubmitJob s1 "POST" (Some twin_request) (clock_at (1 * Second)))
  = Error StatusInternalServerError "Failed to create job".
Proof.
  intros s1.
  destruct (ratelimit.Allow (rateLimiter s1) "t2" (tAllow (clock_at (1 * Second))))
    as [ok rl] eqn:Hallow.
  assert (Hok : ok = true) by (by injection Hallow as <- _).
  subst ok.
  destruct (SubmitJob_id_collision (NewServer []) s1 "POST" one_shot_request
              twin_request (clock_at (1 * Second)) (clock_at (1 * Second)) _ rl
              eq_refl eq_refl ltac:(discriminate) ltac:(discriminate) Hallow
              ltac:(reflexivity) eq_refl) as [_ Hresp].
  by rewrite Hresp.
Defined.

(** X5.  The concurrency gate.  A valid submission of a tenant with five
    or more Running jobs is answered 429 and leaves the store as it was,
    also when it repeats an idempotency key that is on file; the rate gate
    has been asked first, so a token of the tenant is spent on the refused
    call whenever the rate gate let it pass. *)
Theorem quota_gate_refuses (s : Server) (req : JobSubmitRequest) (clk : SubmitClock) :
  req_TenantID req ≠ EmptyString →
  req_Payload req ≠ EmptyString →
  5 <= GetRunningJobsCount (db s) (req_TenantID req) →
  let '(ok, rl) := ratelimit.Allow (rateLimiter s) (req_TenantID req) (tAllow clk) in
  SubmitJob s "POST" (Some req) clk
  = ({| db := db s; rateLimiter := rl |},
     Error StatusTooManyRequests
       (if ok then "Concurrent job limit exceeded (max 5)" else "Rate limit exceeded")).
Proof.
  intros Htenant Hpayload Hquota.
  destruct (ratelimit.Allow _ _ _) as [ok rl] eqn:Hallow.
  unfold SubmitJob. cbn [String.eqb Ascii.eqb Bool.eqb negb].
  destruct (String.eqb_spec (req_TenantID req) EmptyString); [done|].
  destruct (String.eqb_spec (req_Payload req) EmptyString); [done|].
  cbn [orb]. rewrite Hallow. cbn [db rateLimiter].
  destruct ok; cbn [negb]; [|done].
  by destruct (Z.leb_spec 5 (GetRunningJobsCount (db s) (req_TenantID req))); [|lia].
Qed.

(** The sixth job of a tenant with five Running jobs. *)
Lemma quota_gate_refuses_witness :
  SubmitJob (NewServer busy_store) "POST" (Some one_shot_request) (clock_at (1 * Second))
  = ({| db := busy_store;
        rateLimiter := snd (ratelimit.Allow (ratelimit.New 10) "t1" (1 * Second)) |},
     Error StatusTooManyRequests "Concurrent job limit exceeded (max 5)").
Proof.
  pose proof (quota_gate_refuses (NewServer busy_store) one_shot_request
                (clock_at (1 * Second)) ltac:(discriminate) ltac:(discriminate)
                ltac:(discriminate)) as H.
  exact H.
Defined.

(** X6.  A request that is not a POST, has no decodable body, or lacks
    the tenant or the payload is turned away with 405 or 400 before any
    gate is asked: the store and the rate limiter are exactly as they
    were, so a malformed request costs its tenant no token. *)
Theorem malformed_request_no_effect (s : Server) (method : string)
    (body : option JobSubmitRequest) (clk : SubmitClock) :
  (method ≠ "POST"
   ∨ body = None
   ∨ ∃ req, body = Some req
       ∧ (req_TenantID req = EmptyString ∨ req_Payload req = EmptyString)) →
  SubmitJob s method body clk
  = (s, if decide (method = "POST")
        then match body with
             | None => Error StatusBadRequest "Invalid request body"
             | Some _ => Error StatusBadRequest "tenant_id and payload are required"
             end
        else Error StatusMethodNotAllowed "Method not allowed").
Proof.
  intros Hbad. unfold SubmitJob.
  destruct (String.eqb_spec method "POST") as [->|Hmethod]; cbn [negb];
    case_decide; try done.
  destruct Hbad as [?|[->|(req & -> & Hfield)]]; [done|done|].
  destruct Hfield as [->| ->]; [done|].
  by rewrite orb_true_r.
Qed.

Lemma malformed_request_no_effect_witness :
  let s := {| db := [default_row]; rateLimiter := spent_limiter |} in
  SubmitJob s "POST"
    (Some {| req_TenantID := "t1"; req_Payload := EmptyString;
             req_IdempotencyKey := "k"; req_MaxRetries := 3 |})
    (clock_at (1 * Second))
  = (s, Error StatusBadRequest "tenant_id and payload are required").
Proof.
  intros s.
  refine (malformed_request_no_effect s "POST" (Some _) (clock_at (1 * Second)) _).
  right; right. eexists. split; [reflexivity|]. right. reflexivity.
Defined.

(** X7.  No submission changes or removes a row: the store after the
    call is the store before it, followed by at most one new row, and that
    row is Pending with no retry counted, no lease and no message.  Every
    job that could be looked up by id before the call is found unchanged
    after it. *)
Theorem SubmitJob_appends_only (s : Server) (method : string)
    (body : option JobSubmitRequest) (clk : SubmitClock) :
  let s' := fst (SubmitJob s method body clk) in
  (∃ new, db s' = (db s ++ new)%list
     ∧ (length new <= 1)%nat
     ∧ Forall (λ r, status r = StatusPending ∧ retry_count r = 0
                    ∧ leased_until r = None ∧ error_message r = None) new)
  ∧ ∀ jobID job, GetJobByID (db s) jobID = inl job →
                 GetJobByID (db s') jobID = inl job.
Proof.
  intros s'. unfold s'.
  destruct (SubmitJob_db s method body clk) as [->|(req & _ & -> & _ & _ & _)].
  - split; [|done]. exists []. rewrite app_nil_r. repeat split; [simpl; lia|done].
  - split.
    + eexists. split; [done|]. split; [simpl; lia|]. by apply Forall_singleton.
    + intros jobID job. unfold GetJobByID. rewrite find_snoc.
      by destruct (find _ (db s)).
Qed.

End submission_cases.

(** ** The worker: success, terminal rows, late updates *)

Section worker_runs.
Context {env : Environment}.

(** One tick of a worker is a lease followed at once by its update. *)
Lemma processNextJob_run (st : State) (now tLease tDone tUpdate : Time) :
  db (server (run st [Lease now tLease;
                      Acknowledge (length (leased st)) tDone tUpdate]))
  = processNextJob (db (server st)) now tLease tDone tUpdate.
Proof.
  unfold run, processNextJob. simpl.
  destruct (LeaseJob _ _ _) as [db1 [job|err]] eqn:Hlease; simpl.
  - rewrite lookup_app_r, Nat.sub_diag by done. done.
  - rewrite lookup_ge_None_2 by done.
    unfold LeaseJob in Hlease. destruct (oldest _); [done|]. by injection Hlease as <-.
Qed.

Lemma acknowledge_ids (db : DB) (job : Job) (success : bool) (now : Time) :
  id <$> acknowledge db job success now = id <$> db.
Proof.
  unfold acknowledge, UpdateJobStatus, UpdateJobForRetry.
  repeat case_match; by apply update_where_id_ids.
Qed.

(** What [acknowledge] does to the row of the job and to the others. *)
Lemma acknowledge_row (db : DB) (job : Job) (success : bool) (now : Time)
    (i : nat) (r : Row) :
  pk_unique db → db !! i = Some r → id r = ID job →
  (∃ r', acknowledge db job success now !! i = Some r'
     ∧ SameIdentity r r'
     ∧ leased_until r' = None
     ∧ updated_at r' = now
     ∧ (success = true →
        status r' = StatusDone ∧ error_message r' = None
        ∧ retry_count r' = retry_count r)
     ∧ (success = false → status r' = StatusFailed)
     ∧ (success = false → wrap64 (RetryCount job + 1) < MaxRetries job →
        retry_count r' = wrap64 (RetryCount job + 1)))
  ∧ ∀ j r0, j ≠ i → db !! j = Some r0 → acknowledge db job success now !! j = Some r0.
Proof.
  intros Hpk Hi Hid. unfold acknowledge, UpdateJobStatus, UpdateJobForRetry.
  destruct success.
  - destruct (update_where_id_row (set_status StatusDone now (nullString EmptyString))
                (ID job) db i r Hpk Hi Hid) as [Hrow Hrest].
    split; [|done]. eexists. split; [exact Hrow|]. by repeat split.
  - cbn [count_failure MaxRetries RetryCount ID].
    destruct (Z.leb_spec (MaxRetries job) (wrap64 (RetryCount job + 1))).
    + destruct (update_where_id_row
                  (set_status StatusFailed now
                     (nullString "Max retries exceeded - moved to DLQ"))
                  (ID job) db i r Hpk Hi Hid) as [Hrow Hrest].
      split; [|done]. eexists. split; [exact Hrow|].
      repeat split; try done. intros _ ?. lia.
    + destruct (update_where_id_row
                  (set_retry (wrap64 (RetryCount job + 1)) now "Job failed - will retry")
                  (ID job) db i r Hpk Hi Hid) as [Hrow Hrest].
      split; [|done]. eexists. split; [exact Hrow|]. by repeat split.
Qed.

(** X8.  When the execution of a claimed job succeeds, the worker writes
    one update that leaves the job's row Done, with the lease and the
    error message cleared and the retry count as it was; the row is never
    eligible again, and no other row changes during the tick. *)
Theorem successful_execution_recorded (db db1 : DB)
    (now tLease tDone tUpdate : Time) (job : Job) :
  pk_unique db →
  LeaseJob db (Add now leaseDuration) tLease = (db1, inl job) →
  executeJob job tDone = true →
  ∃ i r0 r2,
    db !! i = Some r0 ∧ id r0 = ID job
    ∧ processNextJob db now tLease tDone tUpdate !! i = Some r2
    ∧ status r2 = StatusDone
    ∧ leased_until r2 = None
    ∧ error_message r2 = None
    ∧ updated_at r2 = tUpdate
    ∧ retry_count r2 = retry_count r0
    ∧ SameIdentity r0 r2
    ∧ (∀ later, ¬ Eligible later r2)
    ∧ ∀ j r', j ≠ i → db !! j = Some r' →
        processNextJob db now tLease tDone tUpdate !! j = Some r'.
Proof.
  intros Hpk Hlease Hok.
  destruct (LeaseJob_row _ _ _ _ _ Hpk Hlease)
    as (i & r & Hi & _ & -> & Hi1 & Hothers & Hpk1).
  unfold processNextJob. rewrite Hlease, Hok.
  destruct (acknowledge_row db1 (leased_job (Add now leaseDuration) r) true
              tUpdate i _ Hpk1 Hi1 eq_refl)
    as [(r2 & Hi2 & Hsame & Hlu & Hup & Hdone & _) Hrest].
  destruct (Hdone eq_refl) as (Hst & Hmsg & Hrc).
  exists i, r, r2. repeat split; try done; try apply Hsame.
  - intros later [Hp|[[Hr _]|[Hf _]]]; congruence.
  - intros j r' Hne Hj. apply Hrest; [done|]. by apply Hothers.
Qed.

(** A tick leaves alone every row that does not pass the [WHERE] clause
    when the tick takes its lease, and keeps ids unique. *)
Lemma processNextJob_frame (db : DB) (now tLease tDone tUpdate : Time)
    (i : nat) (r : Row) :
  pk_unique db → db !! i = Some r → eligible tLease r = false →
  processNextJob db now tLease tDone tUpdate !! i = Some r.
Proof.
  intros Hpk Hi Hnot. unfold processNextJob.
  destruct (LeaseJob _ _ _) as [db1 [job|err]] eqn:Hlease.
  - destruct (LeaseJob_row _ _ _ _ _ Hpk Hlease)
      as (k & r0 & Hk & Hel & -> & Hk1 & Hothers & Hpk1).
    assert (i ≠ k) as Hne by (intros ->; congruence).
    destruct (acknowledge_row db1 (leased_job (Add now leaseDuration) r0)
                (executeJob (leased_job (Add now leaseDuration) r0) tDone)
                tUpdate k _ Hpk1 Hk1 eq_refl) as [_ Hrest].
    apply Hrest; [done|]. by apply Hothers.
  - by destruct (LeaseJob_inr _ _ _ _ _ Hlease) as (_ & -> & _).
Qed.

Lemma processNextJob_pk_unique (db : DB) (now tLease tDone tUpdate : Time) :
  pk_unique db → pk_unique (processNextJob db now tLease tDone tUpdate).
Proof.
  intros Hpk. unfold processNextJob.
  destruct (LeaseJob _ _ _) as [db1 [job|err]] eqn:Hlease.
  - destruct (LeaseJob_row _ _ _ _ _ Hpk Hlease) as (_ & _ & _ & _ & _ & _ & _ & Hpk1).
    unfold pk_unique. by rewrite acknowledge_ids.
  - by destruct (LeaseJob_inr _ _ _ _ _ Hlease) as (_ & -> & _).
Qed.

(** X9.  A worker that runs alone never touches a finished row: a row
    that is Done, or Failed with its retry budget used up, is the same
    after any number of ticks, whatever the clock and the outcomes of the
    executions in between. *)
Theorem Start_leaves_terminal_rows (db : DB) (ticks : list Tick) (i : nat) (r : Row) :
  pk_unique db →
  db !! i = Some r →
  status r = StatusDone ∨ DeadLettered r →
  Start db ticks !! i = Some r.
Proof.
  intros Hpk Hi Hterm. unfold Start.
  revert db Hpk Hi. induction ticks as [|t ticks IH]; intros db Hpk Hi; [done|].
  simpl. apply IH.
  - by apply processNextJob_pk_unique.
  - apply processNextJob_frame; [done..|]. by apply terminal_not_eligible.
Qed.

(** X10.  The update a worker writes does not look at the row it
    updates.  A worker that still holds a job whose execution now fails,
    with a retry left on its copy, leaves the row Failed with the count of
    its copy raised by one, whatever the row had become in the meantime: a
    job that a second worker claimed after the lease ran out, and brought
    to Done, is Failed again and eligible for another run. *)
Theorem late_update_overwrites (st : State) (i j : nat) (job : Job) (r : Row)
    (tDone tUpdate : Time) :
  pk_unique (db (server st)) →
  leased st !! i = Some job →
  db (server st) !! j = Some r →
  id r = ID job →
  max_retries r = MaxRetries job →
  executeJob job tDone = false →
  minInt64 <= RetryCount job →
  RetryCount job + 1 < MaxRetries job →
  MaxRetries job <= maxInt64 →
  ∃ r', db (server (run_event st (Acknowledge i tDone tUpdate))) !! j = Some r'
    ∧ status r' = StatusFailed
    ∧ retry_count r' = RetryCount job + 1
    ∧ ∀ later, Eligible later r'.
Proof.
  intros Hpk Hjob Hj Hid Hmax Hfail Hlo Hleft Hhi.
  simpl. rewrite Hjob. simpl. rewrite Hfail.
  assert (Hwrap : wrap64 (RetryCount job + 1) = RetryCount job + 1).
  { apply wrap64_small. unfold minInt64, maxInt64 in *. lia. }
  destruct (acknowledge_row (db (server st)) job false tUpdate j r Hpk Hj Hid)
    as [(r' & Hj' & Hsame & _ & _ & _ & Hst & Hrc) _].
  exists r'. split; [exact Hj'|]. split; [by apply Hst|].
  rewrite Hwrap in Hrc. split; [by apply Hrc|].
  intros later. right; right. split; [by apply Hst|].
  rewrite Hrc by done. destruct Hsame as (_ & _ & _ & _ & -> & _). lia.
Qed.

End worker_runs.

Section worker_runs_cases.
Existing Instance plain.

(** A pending job is claimed, and its execution ends at second 16. *)
Lemma successful_execution_recorded_witness :
  ∃ r2, processNextJob [default_row] (10 * Second) (10 * Second)
          (16 * Second) (17 * Second) !! 0%nat = Some r2
    ∧ status r2 = StatusDone ∧ error_message r2 = None.
Proof.
  assert (Hpk : pk_unique [default_row]).
  { unfold pk_unique. simpl. apply NoDup_singleton. }
  destruct (successful_execution_recorded [default_row] _ (10 * Second) (10 * Second)
              (16 * Second) (17 * Second) _ Hpk eq_refl eq_refl)
    as (i & r0 & r2 & Hi & _ & Hi2 & Hst & _ & Hmsg & _).
  destruct i as [|i]; [|by destruct i].
  exists r2. split; [exact Hi2|]. split; [exact Hst|exact Hmsg].
Defined.


(** A finished row next to a job that fails and is then claimed again. *)
Lemma Start_leaves_terminal_rows_witness :
  Start [finished_row; one_shot_row] two_ticks !! 0%nat = Some finished_row.
Proof.
  assert (Hpk : pk_unique [finished_row; one_shot_row]).
  { unfold pk_unique. simpl. apply NoDup_cons. split; [|apply NoDup_singleton].
    intros Hin%list_elem_of_singleton. discriminate. }
  exact (Start_leaves_terminal_rows [finished_row; one_shot_row] two_ticks 0
           finished_row Hpk eq_refl (or_introl eq_refl)).
Defined.

(** The job of [overtaken]: finished by the second worker at second 46,
    failed by the first at second 50. *)
Lemma late_update_overwrites_witness :
  (status <$> db (server (run init overtaken))) = [StatusDone]
  ∧ ∃ r', db (server (run_event (run init overtaken)
                        (Acknowledge 0 (50 * Second) (50 * Second)))) !! 0%nat
          = Some r'
      ∧ status r' = StatusFailed ∧ retry_count r' = 1.
Proof.
  split; [reflexivity|].
  assert (Hpk : pk_unique (db (server (run init overtaken)))).
  { unfold pk_unique. apply NoDup_singleton. }
  destruct (late_update_overwrites (run init overtaken) 0 0 _ _ (50 * Second)
              (50 * Second) Hpk eq_refl eq_refl eq_refl eq_refl eq_refl
              ltac:(discriminate) ltac:(reflexivity) ltac:(discriminate))
    as (r' & Hr' & Hst & Hrc & _).
  exists r'. split; [exact Hr'|]. split; [exact Hst|exact Hrc].
Defined.

End worker_runs_cases.

(** ** Invariants of the running process *)

Section process_invariants.
Context {env : Environment}.

Lemma SameIdentity_refl (r : Row) : SameIdentity r r.
Proof. by repeat split. Qed.

Lemma SameIdentity_trans (r1 r2 r3 : Row) :
  SameIdentity r1 r2 → SameIdentity r2 r3 → SameIdentity r1 r3.
Proof.
  unfold SameIdentity. intros (?&?&?&?&?&?&?) (?&?&?&?&?&?&?).
  repeat split; congruence.
Qed.

Lemma update_where_id_identity (set : Row → Row) (jobID : string) (db : DB)
    (i : nat) (r : Row) :
  (∀ r0, SameIdentity r0 (set r0)) →
  db !! i = Some r →
  ∃ r', update_where_id set jobID db !! i = Some r' ∧ SameIdentity r r'.
Proof.
  intros Hset Hi. rewrite update_where_id_lookup, Hi. simpl.
  eexists. split; [done|]. case_match; [apply Hset|apply SameIdentity_refl].
Qed.

Lemma acknowledge_identity (db : DB) (job : Job) (success : bool) (now : Time)
    (i : nat) (r : Row) :
  db !! i = Some r →
  ∃ r', acknowledge db job success now !! i = Some r' ∧ SameIdentity r r'.
Proof.
  intros Hi. unfold acknowledge, UpdateJobStatus, UpdateJobForRetry.
  repeat case_match; by apply update_where_id_identity.
Qed.

Lemma run_event_identity (st : State) (ev : Event) (i : nat) (r : Row) :
  db (server st) !! i = Some r →
  ∃ r', db (server (run_event st ev)) !! i = Some r' ∧ SameIdentity r r'.
Proof.
  intros Hi. destruct ev as [method body clk|now tLease|k tDone tUpdate]; simpl.
  - exists r. split; [|apply SameIdentity_refl].
    destruct (SubmitJob_db (server st) method body clk)
      as [Heq|(req & _ & Heq & _)]; simpl in Heq; rewrite Heq; [done|].
    by apply lookup_app_l_Some.
  - unfold LeaseJob. destruct (oldest _) as [r0|]; simpl.
    + by apply update_where_id_identity.
    + exists r. split; [done|apply SameIdentity_refl].
  - destruct (leased st !! k) as [job|]; simpl.
    + by apply acknowledge_identity.
    + exists r. split; [done|apply SameIdentity_refl].
Qed.

(** X11.  Whatever the process does, a row stays where it is in the table
    and keeps its [id], [tenant_id], [payload], [idempotency_key],
    [max_retries], [created_at] and [trace_id]: no submission, lease or
    update of a worker, in any order and at any time, changes one of these
    columns or deletes a row. *)
Theorem identity_columns_never_change (st : State) (evs : list Event)
    (i : nat) (r : Row) :
  db (server st) !! i = Some r →
  ∃ r', db (server (run st evs)) !! i = Some r' ∧ SameIdentity r r'.
Proof.
  unfold run. revert st r. induction evs as [|ev evs IH]; intros st r Hi; simpl.
  - exists r. split; [done|apply SameIdentity_refl].
  - destruct (run_event_identity st ev i r Hi) as (r1 & Hi1 & Hsame1).
    destruct (IH _ _ Hi1) as (r2 & Hi2 & Hsame2).
    exists r2. split; [done|]. by apply (SameIdentity_trans r r1 r2).
Qed.

Lemma Coherent_set (r : Row) :
  ∀ leaseUntil now,
    Coherent (set_lease leaseUntil now r)
    ∧ Coherent (set_status StatusDone now (nullString EmptyString) r)
    ∧ (∀ msg, Coherent (set_status StatusFailed now msg r))
    ∧ (∀ n msg, Coherent (set_retry n now msg r)).
Proof.
  intros leaseUntil now. unfold Coherent; simpl. repeat split; try done.
Qed.

Lemma Forall_update_where_id (P : Row → Prop) (set : Row → Row) (jobID : string)
    (db : DB) :
  Forall P db → (∀ r, r ∈ db → id r = jobID → P (set r)) →
  Forall P (update_where_id set jobID db).
Proof.
  unfold update_where_id. rewrite !Forall_forall.
  intros Hall Hset r' (r & -> & Hr)%list_elem_of_fmap.
  destruct (String.eqb_spec (id r) jobID); [by apply Hset|by apply Hall].
Qed.

Lemma run_event_Coherent (st : State) (ev : Event) :
  Forall Coherent (db (server st)) → Forall Coherent (db (server (run_event st ev))).
Proof.
  intros Hall. destruct ev as [method body clk|now tLease|k tDone tUpdate]; simpl.
  - destruct (SubmitJob_db (server st) method body clk)
      as [Heq|(req & _ & Heq & _)]; simpl in Heq; rewrite Heq; [done|].
    apply Forall_app. split; [done|]. apply Forall_singleton.
    unfold Coherent; simpl. by repeat split.
  - unfold LeaseJob. destruct (oldest _) as [r0|]; simpl; [|done].
    apply Forall_update_where_id; [done|]. intros r _ _.
    apply (Coherent_set r (Add now leaseDuration) tLease).
  - destruct (leased st !! k) as [job|]; simpl; [|done].
    unfold acknowledge, UpdateJobStatus, UpdateJobForRetry.
    repeat case_match; (apply Forall_update_where_id; [done|]); intros r _ _;
      apply (Coherent_set r 0 tUpdate).
Qed.

(** X12.  The status of a row and its other columns stay in step.  If in
    every row a lease is recorded exactly when the row is Running, a
    Pending row has no retry counted and no message, and a Done row has no
    message, then the same holds after any steps of the process; it holds
    in the empty store the process starts from. *)
Theorem rows_stay_coherent (st : State) (evs : list Event) :
  Forall Coherent (db (server st)) →
  Forall Coherent (db (server (run st evs))).
Proof.
  unfold run. revert st. induction evs as [|ev evs IH]; intros st Hall; [done|].
  simpl. apply IH. by apply run_event_Coherent.
Qed.

End process_invariants.

Section process_invariants_cases.
Existing Instance plain.

(** The first row of [overtaken], followed through a late update. *)
Lemma identity_columns_never_change_witness :
  ∃ r', db (server (run (run init (take 1 overtaken))
                      (drop 1 overtaken
                       ++ [Acknowledge 0 (50 * Second) (50 * Second)])))
          !! 0%nat = Some r'
    ∧ SameIdentity (inserted_row (new_job repeat_request (clock_at (1 * Second)))) r'.
Proof.
  exact (identity_columns_never_change (run init (take 1 overtaken)) _ 0 _ eq_refl).
Defined.

Lemma rows_stay_coherent_witness :
  Forall Coherent (db (server (run init (overtaken
                     ++ [Acknowledge 0 (50 * Second) (50 * Second)])))).
Proof.
  exact (rows_stay_coherent init _ (Forall_nil_2 _)).
Defined.

End process_invariants_cases.

Section budget.
Context {env : Environment}.

Lemma leased_known_after_update (set : Row → Row) (jobID : string) (db : DB)
    (jobs : list Job) :
  (∀ r, id (set r) = id r ∧ max_retries (set r) = max_retries r) →
  Forall (λ job, 0 <= RetryCount job < MaxRetries job
                 ∧ ∃ r, r ∈ db ∧ id r = ID job ∧ max_retries r = MaxRetries job) jobs →
  Forall (λ job, 0 <= RetryCount job < MaxRetries job
                 ∧ ∃ r, r ∈ update_where_id set jobID db
                        ∧ id r = ID job ∧ max_retries r = MaxRetries job) jobs.
Proof.
  intros Hset Hall. eapply Forall_impl; [exact Hall|]. simpl.
  intros job [Hrc Hrow]. split; [done|]. by apply known_after_update.
Qed.

Lemma count_where_none (p : Row → bool) (db : DB) :
  Forall (λ r, p r = false) db → count_where p db = 0.
Proof.
  induction 1 as [|r db Hr _ IH]; [done|]. by rewrite count_where_cons, Hr, IH.
Qed.

Lemma run_event_budget_invariant (st : State) (ev : Event) :
  budget_invariant st → int_budget ev → budget_invariant (run_event st ev).
Proof.
  intros (Hpk & Hb & Hleased) Hev.
  destruct ev as [method body clk|now tLease|i tDone tUpdate]; simpl.
  - unfold budget_invariant, leases_below_budget; simpl.
    destruct (SubmitJob_db (server st) method body clk)
      as [Heq|(req & -> & Heq & Hfresh & _ & _)]; simpl in Heq; rewrite Heq; [done|].
    split; [|split].
    + unfold pk_unique in *. rewrite fmap_app. apply NoDup_app.
      split; [done|]. split; [|apply NoDup_singleton].
      intros k (r & Hk & Hr)%list_elem_of_fmap Hk'%list_elem_of_singleton.
      apply (Hfresh r Hr). by rewrite <- Hk, Hk'.
    + apply Forall_app. split; [done|]. apply Forall_singleton. simpl.
      simpl in Hev. unfold maxInt64 in *.
      destruct (Z.eqb_spec (req_MaxRetries req) 0); lia.
    + eapply Forall_impl; [exact Hleased|]. simpl.
      intros job (Hrc & r & Hr & Hid & Hmax). split; [done|]. exists r.
      split; [|done]. apply elem_of_app. by left.
  - destruct (LeaseJob _ _ _) as [db1 [job|err]] eqn:Hlease; [|done].
    destruct (LeaseJob_inl _ _ _ _ _ Hlease) as (r & Hr & _ & _ & -> & ->).
    unfold budget_invariant, leases_below_budget; simpl.
    split; [by apply update_where_id_pk_unique|]. split.
    + apply Forall_update_where_id; [done|]. intros r' Hr' _. simpl.
      unfold below_budget in Hb. rewrite Forall_forall in Hb. by apply Hb.
    + apply Forall_app. split.
      * by apply leased_known_after_update, Hleased.
      * apply Forall_singleton. simpl. split.
        -- unfold below_budget in Hb. rewrite Forall_forall in Hb. by apply Hb.
        -- apply (known_after_update _ _ _ (leased_job (Add now leaseDuration) r));
             [apply set_lease_keeps|]. by exists r.
  - destruct (leased st !! i) as [job|] eqn:Hjob; [|done].
    unfold leases_below_budget in Hleased.
    pose proof (Forall_lookup_1 _ _ _ _ Hleased Hjob) as (Hrc & r & Hr & Hid & Hmax).
    pose proof Hb as Hb'. unfold below_budget in Hb'. rewrite Forall_forall in Hb'.
    assert (Hwrap : wrap64 (RetryCount job + 1) = RetryCount job + 1).
    { apply wrap64_small. specialize (Hb' r Hr). unfold minInt64, maxInt64 in *. lia. }
    unfold budget_invariant, leases_below_budget; simpl.
    split; [unfold pk_unique; by rewrite acknowledge_ids|]. split.
    + unfold acknowledge, UpdateJobStatus, UpdateJobForRetry.
      cbn [count_failure MaxRetries RetryCount ID]. rewrite Hwrap.
      repeat case_match; (apply Forall_update_where_id; [done|]); intros r' Hr' Hid';
        simpl; try by apply Hb'.
      assert (r' = r) as -> by (apply (pk_unique_inj (db (server st))); congruence).
      specialize (Hb' r Hr).
      match goal with H : (_ <=? _) = false |- _ => apply Z.leb_gt in H end. lia.
    + assert (Hbounded : retry_bounded (db (server st))).
      { eapply Forall_impl; [exact Hb|]. simpl. intros r0 [Hr0 _]. lia. }
      destruct (acknowledge_well_formed (db (server st)) job (executeJob job tDone)
                  tUpdate Hpk Hbounded (ex_intro _ r (conj Hr (conj Hid Hmax))))
        as (_ & _ & Hkeeps).
      apply Forall_forall. intros job' Hin'.
      apply list_elem_of_delete_inv in Hin'.
      rewrite Forall_forall in Hleased. destruct (Hleased job' Hin') as [Hrc' Hrow'].
      split; [done|]. by apply Hkeeps.
Qed.

(** X13.  In every state the process reaches from its start, as long as
    no submission asks for a negative [max_retries], every row has
    [0 <= retry_count < max_retries]: the count that is stored never
    reaches the budget.  So no row is ever dead-lettered, and the
    [dlq_jobs] count of [GetMetrics] is 0. *)
Theorem stored_count_stays_below_budget (evs : list Event) :
  Forall int_budget evs →
  let db := db (server (run init evs)) in
  below_budget db
  ∧ Forall (λ r, ¬ DeadLettered r) db
  ∧ DLQJobs (GetMetrics db) = 0.
Proof.
  intros Hevs.
  assert (Hinv : budget_invariant (run init evs)).
  { unfold run. assert (Hinit : budget_invariant init).
    { repeat split; [apply NoDup_nil_2|apply Forall_nil_2..]. }
    revert Hinit. generalize init.
    induction evs as [|ev evs IH]; intros st Hst; simpl; [done|].
    apply Forall_cons in Hevs as [Hev Hevs].
    apply IH; [done|]. by apply run_event_budget_invariant. }
  destruct Hinv as (_ & Hb & _). simpl.
  assert (Hnone : Forall (λ r, ¬ DeadLettered r) (db (server (run init evs)))).
  { eapply Forall_impl; [exact Hb|]. simpl. intros r [Hrc _] [_ Hdead]. lia. }
  split; [done|]. split; [done|].
  apply count_where_none. eapply Forall_impl; [exact Hb|]. simpl.
  intros r [Hrc _]. apply andb_false_iff. right. apply Z.leb_gt. lia.
Qed.

End budget.

Section budget_cases.
Existing Instance plain.

(** The run of [one_failure], in which a job with [max_retries = 1]
    fails. *)
Lemma stored_count_stays_below_budget_witness :
  DLQJobs (GetMetrics (db (server (run init one_failure)))) = 0.
Proof.
  assert (Hevs : Forall int_budget one_failure).
  { repeat constructor; discriminate. }
  exact (proj2 (proj2 (stored_count_stays_below_budget one_failure Hevs))).
Defined.

End budget_cases.

(** ** Listing jobs *)

Section listing.
Context {env : Environment}.

Lemma insert_newest_first_perm (r : Row) (rows : list Row) :
  insert_newest_first r rows ≡ₚ r :: rows.
Proof.
  induction rows as [|r' rest IH]; simpl; [done|].
  case_match; [done|]. rewrite IH. apply Permutation_swap.
Qed.

Lemma newest_first_perm (rows : list Row) : newest_first rows ≡ₚ rows.
Proof.
  induction rows as [|r rest IH]; simpl; [done|].
  by rewrite insert_newest_first_perm, IH.
Qed.

Lemma insert_newest_first_sorted (r : Row) (rows : list Row) :
  rows_by_text rows → rows_by_text (insert_newest_first r rows).
Proof.
  unfold rows_by_text.
  induction 1 as [|r' rest Hrest IH Hall]; simpl.
  - by repeat constructor.
  - destruct (text_ltb (created_at r') (created_at r)
              || negb (text_ltb (created_at r) (created_at r')) && tie_before r r')
      eqn:Hfirst.
    + assert (Hge : text_ltb (created_at r) (created_at r') = false).
      { apply orb_true_iff in Hfirst as [Hlt|Htie]; [by apply text_ltb_asym|].
        apply andb_true_iff in Htie as [Htie _]. by apply negb_true_iff in Htie. }
      constructor; [by constructor|]. constructor; [done|].
      eapply Forall_impl; [exact Hall|]. simpl. intros x Hx.
      by apply (text_geb_trans _ (created_at r')).
    + apply orb_false_iff in Hfirst as [Hge _].
      constructor; [done|].
      rewrite insert_newest_first_perm. by constructor.
Qed.

Lemma newest_first_sorted (rows : list Row) : rows_by_text (newest_first rows).
Proof.
  induction rows as [|r rest IH]; simpl; [constructor|].
  by apply insert_newest_first_sorted.
Qed.

Lemma filter_bool_Prop (p : Row → bool) (P : Row → Prop) `{!∀ r, Decision (P r)}
    (rows : list Row) :
  (∀ r, p r = true ↔ P r) → List.filter p rows = filter P rows.
Proof.
  intros Hp. induction rows as [|r rest IH]; [done|]. simpl.
  destruct (p r) eqn:Hr.
  - rewrite filter_cons_True by by apply Hp. by rewrite IH.
  - rewrite filter_cons_False; [done|]. rewrite <- Hp. congruence.
Qed.

Lemma listed_Listed (wantStatus tenantID : string) (r : Row) :
  listed wantStatus tenantID r = true ↔ Listed wantStatus tenantID r.
Proof.
  unfold listed, Listed.
  by rewrite andb_true_iff, !orb_true_iff, !String.eqb_eq.
Qed.

Lemma scanJob_by_text (rows : list Row) :
  rows_by_text rows → jobs_by_text (scanJob <$> rows).
Proof. by apply StronglySorted_fmap. Qed.

(** A job that is listed is the job of a row of the table. *)
Lemma listed_job_row (wantStatus tenantID : string) (db : DB) (j : Job) :
  j ∈ scanJob <$> filter (Listed wantStatus tenantID) db →
  ∃ i r, db !! i = Some r ∧ j = scanJob r.
Proof.
  intros (r & -> & Hr)%list_elem_of_fmap.
  apply list_elem_of_filter in Hr as [_ Hr].
  apply list_elem_of_lookup in Hr as [i Hi]. by exists i, r.
Qed.

(** A list in the order of one relation is in the order of another that
    holds wherever the first does on its elements. *)
Lemma StronglySorted_weaken {A} (R R' : A → A → Prop) (l : list A) :
  StronglySorted R l →
  (∀ x y, x ∈ l → y ∈ l → R x y → R' x y) →
  StronglySorted R' l.
Proof.
  induction 1 as [|x l Hl IH Hx]; intros Hweak; constructor.
  - apply IH. intros y z Hy Hz. apply Hweak; by right.
  - rewrite Forall_forall in *. intros y Hy.
    apply Hweak; [by left|by right|by apply Hx].
Qed.

(** With one offset, the order of the texts is the order of the
    instants. *)
Lemma jobs_by_text_newest_first (wantStatus tenantID : string) (db : DB)
    (jobs : list Job) :
  created_at_one_offset db →
  jobs ⊆ scanJob <$> filter (Listed wantStatus tenantID) db →
  jobs_by_text jobs → jobs_newest_first jobs.
Proof.
  intros Hzone Hsub Hsorted.
  apply (StronglySorted_weaken _ _ _ Hsorted). intros j j' Hj Hj' Hge.
  destruct (listed_job_row _ _ _ _ (Hsub _ Hj)) as (i & r & Hi & ->).
  destruct (listed_job_row _ _ _ _ (Hsub _ Hj')) as (i' & r' & Hi' & ->).
  simpl in *. rewrite text_ltb_one_offset in Hge.
  - by apply Z.ltb_ge in Hge.
  - apply Hzone; apply list_elem_of_lookup; eauto.
Qed.

(** With distinct texts, two lists of listed jobs that are in the order of
    the texts and hold the same jobs are the same list. *)
Lemma jobs_by_text_unique (wantStatus tenantID : string) (db : DB)
    (jobs jobs' : list Job) :
  created_at_distinct db →
  jobs ≡ₚ scanJob <$> filter (Listed wantStatus tenantID) db →
  jobs' ≡ₚ jobs →
  jobs_by_text jobs → jobs_by_text jobs' → jobs' = jobs.
Proof.
  intros Hdistinct Hperm Hperm' Hsorted Hsorted'.
  apply (StronglySorted_unique_strong
           (λ j j', text_ltb (CreatedAt j) (CreatedAt j') = false)); [|done..].
  intros j j' Hj Hj' Hge Hge'.
  rewrite Hperm', Hperm in Hj. rewrite Hperm in Hj'.
  destruct (listed_job_row _ _ _ _ Hj) as (i & r & Hi & ->).
  destruct (listed_job_row _ _ _ _ Hj') as (i' & r' & Hi' & ->).
  simpl in *. destruct (decide (i = i')) as [->|Hne]; [congruence|].
  destruct (Hdistinct i i' r r' Hi Hi' Hne); congruence.
Qed.

(** What [LIMIT] keeps and what it drops. *)
Lemma limit_rows_split (limit : Z) (rows : list Row) :
  ∃ dropped, (limit_rows limit rows ++ dropped)%list = rows
    ∧ (0 <= limit → Z.of_nat (length (limit_rows limit rows)) <= limit)
    ∧ (limit < 0 ∨ Z.of_nat (length rows) <= limit → dropped = []).
Proof.
  unfold limit_rows. destruct (Z.ltb_spec limit 0).
  - exists []. rewrite app_nil_r. split; [done|]. split; [lia|done].
  - exists (drop (Z.to_nat limit) rows). rewrite take_drop.
    split; [done|]. split.
    + intros _. rewrite length_take. lia.
    + intros [?|Hall]; [lia|]. apply drop_ge. lia.
Qed.

(** The rows [ListJobs] has before it applies the limit. *)
Lemma ListJobs_all (db : DB) (wantStatus tenantID : string) :
  ListJobs db wantStatus tenantID (-1)
    ≡ₚ scanJob <$> filter (Listed wantStatus tenantID) db
  ∧ jobs_by_text (ListJobs db wantStatus tenantID (-1)).
Proof.
  unfold ListJobs, limit_rows. simpl. split.
  - rewrite newest_first_perm.
    by rewrite (filter_bool_Prop _ (Listed wantStatus tenantID))
      by apply listed_Listed.
  - apply scanJob_by_text, newest_first_sorted.
Qed.

Lemma ListJobs_take (db : DB) (wantStatus tenantID : string) (limit : Z) :
  0 <= limit →
  ListJobs db wantStatus tenantID limit
  = take (Z.to_nat limit) (ListJobs db wantStatus tenantID (-1)).
Proof.
  intros Hlimit. unfold ListJobs, limit_rows. simpl.
  destruct (Z.ltb_spec limit 0); [lia|]. by rewrite fmap_take.
Qed.

Lemma filter_unknown_status (wantStatus tenantID : string) (db : DB) :
  wantStatus ∉ [EmptyString; "pending"; "running"; "done"; "failed"] →
  List.filter (listed wantStatus tenantID) db = [].
Proof.
  intros Hstatus. induction db as [|r rest IH]; [done|]. simpl.
  replace (listed wantStatus tenantID r) with false; [done|].
  symmetry. unfold listed. apply andb_false_iff. left.
  apply orb_false_iff. split; apply String.eqb_neq; intros Heq;
    apply Hstatus; [rewrite Heq; by left|].
  rewrite <- Heq. destruct (status r); simpl;
    repeat (first [by left | right]).
Qed.

(** X14.  [ListJobs] answers with the matching jobs in the order of the
    store, which is the order of the texts of [created_at]: no job is
    followed by one whose text is greater.  The list holds at most [limit]
    jobs when the limit is not negative, and together with the jobs it
    leaves out is a rearrangement of all rows that pass the filters; no
    job left out has a greater text than a job listed, and nothing is left
    out when the limit is negative or at least the number of matching
    rows.  When all [created_at] are written with one zone offset, the
    order is that of the instants: the list is newest first, and no job
    left out is newer than a job listed.  An empty string switches a
    filter off, and a status that is none of "pending", "running", "done"
    and "failed" matches no row. *)
Theorem ListJobs_newest_matching (db : DB) (wantStatus tenantID : string) (limit : Z) :
  let matching := scanJob <$> filter (Listed wantStatus tenantID) db in
  let jobs := ListJobs db wantStatus tenantID limit in
  jobs_by_text jobs
  ∧ (0 <= limit → Z.of_nat (length jobs) <= limit)
  ∧ (∃ rest, (jobs ++ rest)%list ≡ₚ matching
       ∧ (∀ j j', j ∈ jobs → j' ∈ rest →
            text_ltb (CreatedAt j) (CreatedAt j') = false)
       ∧ (created_at_one_offset db →
            jobs_newest_first jobs
            ∧ ∀ j j', j ∈ jobs → j' ∈ rest → CreatedAt j' <= CreatedAt j)
       ∧ (limit < 0 ∨ Z.of_nat (length matching) <= limit → rest = []))
  ∧ (wantStatus ∉ [EmptyString; "pending"; "running"; "done"; "failed"] → jobs = []).
Proof.
  intros matching jobs. unfold jobs, ListJobs.
  set (sorted := newest_first (List.filter (listed wantStatus tenantID) db)).
  assert (Hsorted : rows_by_text sorted) by apply newest_first_sorted.
  assert (Hperm : scanJob <$> sorted ≡ₚ matching).
  { unfold sorted, matching. rewrite newest_first_perm.
    by rewrite (filter_bool_Prop _ (Listed wantStatus tenantID))
      by apply listed_Listed. }
  destruct (limit_rows_split limit sorted) as (dropped & Hsplit & Hlen & Hall).
  assert (Hsorted' : jobs_by_text (scanJob <$> (limit_rows limit sorted ++ dropped)%list)).
  { rewrite Hsplit. by apply scanJob_by_text. }
  assert (Hperm' : ((scanJob <$> limit_rows limit sorted)
                    ++ (scanJob <$> dropped))%list ≡ₚ matching).
  { by rewrite <- fmap_app, Hsplit. }
  rewrite fmap_app in Hsorted'.
  split; [by apply StronglySorted_app_1_l in Hsorted'|].
  split; [by rewrite length_fmap|]. split.
  - exists (scanJob <$> dropped). split; [done|]. split; [|split].
    + intros j j' Hj Hj'.
      by apply (StronglySorted_app_1_elem_of _ _ _ j j' Hsorted').
    + intros Hzone.
      assert (Hnewest : jobs_newest_first
                ((scanJob <$> limit_rows limit sorted) ++ (scanJob <$> dropped))%list).
      { apply (jobs_by_text_newest_first wantStatus tenantID db); [done| |done].
        intros j Hj. by rewrite Hperm' in Hj. }
      split; [by apply StronglySorted_app_1_l in Hnewest|].
      intros j j' Hj Hj'.
      by apply (StronglySorted_app_1_elem_of _ _ _ j j' Hnewest).
    + intros Hlimit. rewrite Hall; [done|].
      destruct Hlimit as [?|Hcount]; [by left|right].
      by rewrite <- Hperm, length_fmap in Hcount.
  - intros Hstatus.
    replace sorted with (@nil Row);
      [unfold limit_rows; destruct (limit <? 0); by rewrite ?take_nil|].
    unfold sorted. by rewrite filter_unknown_status.
Qed.

Lemma filter_all (rows : list Row) :
  List.filter (listed EmptyString EmptyString) rows = rows.
Proof. induction rows as [|r rest IH]; [done|]. simpl. by rewrite IH. Qed.

Lemma Listed_all (db : DB) : filter (Listed EmptyString EmptyString) db = db.
Proof.
  rewrite <- (filter_bool_Prop (listed EmptyString EmptyString))
    by apply listed_Listed.
  apply filter_all.
Qed.

Lemma GetAllJobs_all (db : DB) :
  GetAllJobs db ≡ₚ scanJob <$> db ∧ jobs_by_text (GetAllJobs db).
Proof.
  unfold GetAllJobs. split; [by rewrite newest_first_perm|].
  apply scanJob_by_text, newest_first_sorted.
Qed.

(** With distinct texts, [GetAllJobs] gives the only list of all jobs in
    the order of the texts. *)
Lemma GetAllJobs_unique (db : DB) (jobs : list Job) :
  created_at_distinct db →
  jobs ≡ₚ scanJob <$> db → jobs_by_text jobs → jobs = GetAllJobs db.
Proof.
  intros Hdistinct Hjobs Hjobs_sorted.
  destruct (GetAllJobs_all db) as [Hperm Hsorted].
  apply (jobs_by_text_unique EmptyString EmptyString db); try done.
  - by rewrite Listed_all.
  - by rewrite Hperm.
Qed.

(** X15.  [GetAllJobs] answers with every row of the table, each once:
    the list is a rearrangement of the rows as jobs, and its length is the
    [total_jobs] that [GetMetrics] counts on the same store.  It is in the
    order of the texts of [created_at], and newest first when these are
    written with one zone offset.  When no two rows have the same
    [created_at] text the answer is the only list of the jobs in that
    order, and so it is what [ListJobs] answers without filters and
    without a bound. *)
Theorem GetAllJobs_every_job (db : DB) :
  GetAllJobs db ≡ₚ scanJob <$> db
  ∧ Z.of_nat (length (GetAllJobs db)) = TotalJobs (GetMetrics db)
  ∧ jobs_by_text (GetAllJobs db)
  ∧ (created_at_one_offset db → jobs_newest_first (GetAllJobs db))
  ∧ (created_at_distinct db →
     (∀ jobs, jobs ≡ₚ scanJob <$> db → jobs_by_text jobs → jobs = GetAllJobs db)
     ∧ ListJobs db EmptyString EmptyString (-1) = GetAllJobs db).
Proof.
  destruct (GetAllJobs_all db) as [Hperm Hsorted].
  pose proof (GetAllJobs_unique db) as Hunique.
  split; [done|]. split; [|split; [done|split]].
  - rewrite Hperm, length_fmap. simpl. unfold count_where. f_equal.
    clear. induction db as [|r rest IH]; simpl; congruence.
  - intros Hzone.
    apply (jobs_by_text_newest_first EmptyString EmptyString db); [done| |done].
    intros j Hj. by rewrite Listed_all, <- Hperm.
  - intros Hdistinct. split; [intros jobs; by apply Hunique|].
    destruct (ListJobs_all db EmptyString EmptyString) as [Hall Hall_sorted].
    apply Hunique; [done| |done]. by rewrite Hall, Listed_all.
Qed.

(** X16.  The list endpoint never answers with more than 100 jobs, in
    the order of the texts of [created_at], which is newest first when
    these are written with one zone offset.  When no two rows have the
    same [created_at] text, the answer is the first 100 entries of any
    list that holds the matching jobs in that order: of what [ListJobs]
    would answer without a bound and, without filters, of what
    [GetAllJobs] answers. *)
Theorem list_endpoint_newest_hundred (s : Server) (wantStatus tenantID : string) :
  let jobs := handlers.ListJobs s wantStatus tenantID in
  (length jobs <= 100)%nat
  ∧ jobs_by_text jobs
  ∧ (created_at_one_offset (db s) → jobs_newest_first jobs)
  ∧ (created_at_distinct (db s) →
     (∀ all, all ≡ₚ scanJob <$> filter (Listed wantStatus tenantID) (db s) →
             jobs_by_text all → jobs = take 100 all)
     ∧ jobs = take 100 (ListJobs (db s) wantStatus tenantID (-1))
     ∧ handlers.ListJobs s EmptyString EmptyString = take 100 (GetAllJobs (db s))).
Proof.
  intros jobs. unfold jobs, handlers.ListJobs.
  assert (Htake : ∀ st t, ListJobs (db s) st t 100 = take 100 (ListJobs (db s) st t (-1))).
  { intros st t. by rewrite ListJobs_take. }
  destruct (ListJobs_all (db s) wantStatus tenantID) as [Hall Hall_sorted].
  assert (Hsorted : jobs_by_text (ListJobs (db s) wantStatus tenantID 100)).
  { rewrite Htake.
    rewrite <- (take_drop 100 (ListJobs (db s) wantStatus tenantID (-1))) in Hall_sorted.
    by apply StronglySorted_app_1_l in Hall_sorted. }
  split; [rewrite Htake, length_take; lia|]. split; [done|]. split.
  - intros Hzone.
    apply (jobs_by_text_newest_first wantStatus tenantID (db s)); [done| |done].
    intros j Hj. rewrite Htake in Hj.
    rewrite <- Hall, <- (take_drop 100 (ListJobs (db s) wantStatus tenantID (-1))).
    apply elem_of_app. by left.
  - intros Hdistinct. split; [|split].
    + intros all Hperm Hall'. rewrite Htake. f_equal.
      symmetry. apply (jobs_by_text_unique wantStatus tenantID (db s)); try done.
      by rewrite Hall.
    + apply Htake.
    + rewrite Htake. f_equal.
      destruct (ListJobs_all (db s) EmptyString EmptyString) as [Hevery Hevery_sorted].
      apply GetAllJobs_unique; [done| |done]. by rewrite Hevery, Listed_all.
Qed.

End listing.

Section listing_cases.
Existing Instance plain.

(** Under one offset the newer of two jobs is listed first, and a limit
    of one keeps it alone. *)
Example ListJobs_newest_kept :
  ListJobs [default_row; one_shot_row] EmptyString "t1" 1 = [scanJob one_shot_row]
  ∧ GetAllJobs [default_row; one_shot_row] = [scanJob one_shot_row; scanJob default_row]
  ∧ created_at_one_offset [default_row; one_shot_row]
  ∧ created_at_distinct [default_row; one_shot_row].
Proof.
  split; [reflexivity|]. split; [reflexivity|]. split; [done|].
  intros [|[|i]] [|[|j]] r r' Hi Hj Hne; simplify_eq/=;
    first [left; reflexivity|right; reflexivity].
Qed.

(** Two jobs created on either side of the change of offset are listed
    in the order of their texts, the one created earlier first, and not
    newest first. *)
Example GetAllJobs_across_offsets :
  GetAllJobs (env := autumn) [summer_row; winter_row]
    = [scanJob summer_row; scanJob winter_row]
  ∧ ¬ jobs_newest_first (GetAllJobs (env := autumn) [summer_row; winter_row]).
Proof.
  split; [reflexivity|].
  intros Hsorted. apply StronglySorted_inv in Hsorted as [_ Hfirst].
  apply Forall_cons in Hfirst as [Hle _]. by apply Hle.
Qed.

End listing_cases.

(** ** The rate limiter: tenants and bounds *)

Section limiter.
Import ratelimit.

Lemma agree_on_refl (tenantID : string) (rl : RateLimiter) : agree_on tenantID rl rl.
Proof. done. Qed.

Lemma Allow_agree (tenantID : string) (rl rl' : RateLimiter) (now : Time) :
  agree_on tenantID rl rl' →
  fst (Allow rl tenantID now) = fst (Allow rl' tenantID now)
  ∧ agree_on tenantID (snd (Allow rl tenantID now)) (snd (Allow rl' tenantID now)).
Proof.
  intros Hagree.
  assert (Hreset : must_reset rl tenantID now = must_reset rl' tenantID now).
  { unfold must_reset. by destruct Hagree as (_ & -> & _). }
  assert (Hagree1 : agree_on tenantID
            (if must_reset rl tenantID now then reset rl tenantID now else rl)
            (if must_reset rl' tenantID now then reset rl' tenantID now else rl')).
  { rewrite <- Hreset. destruct (must_reset rl tenantID now); [|done].
    destruct Hagree as (_ & _ & Hmax). unfold agree_on, reset; simpl.
    by rewrite !lookup_insert_eq, Hmax. }
  unfold Allow.
  set (rl1 := if must_reset rl tenantID now then _ else _) in *.
  set (rl1' := if must_reset rl' tenantID now then _ else _) in *.
  assert (Htokens : tokens_of rl1 tenantID = tokens_of rl1' tenantID).
  { unfold tokens_of. by destruct Hagree1 as (-> & _). }
  rewrite Htokens. destruct (0 <? tokens_of rl1' tenantID); simpl; [|done].
  split; [done|]. destruct Hagree1 as (_ & Hlast & Hmax).
  unfold agree_on, consume; simpl. by rewrite !lookup_insert_eq, Htokens.
Qed.

Lemma Allow_other_agree (tenantID caller : string) (rl rl' : RateLimiter) (now : Time) :
  caller ≠ tenantID →
  agree_on tenantID rl rl' →
  agree_on tenantID (snd (Allow rl caller now)) rl'.
Proof.
  intros Hne (Htok & Hlast & Hmax).
  destruct (Allow_frame rl caller now tenantID Hne) as (Htok' & Hlast' & Hmax').
  unfold agree_on. by rewrite Htok', Hlast', Hmax'.
Qed.

Lemma answers_agree (tenantID : string) (calls : list (string * Time)) :
  ∀ rl rl', agree_on tenantID rl rl' →
    fst (answers_to tenantID rl calls)
    = fst (answers_to tenantID rl' (own_calls tenantID calls))
    ∧ agree_on tenantID (snd (answers_to tenantID rl calls))
        (snd (answers_to tenantID rl' (own_calls tenantID calls))).
Proof.
  unfold own_calls.
  induction calls as [|[caller now] rest IH]; intros rl rl' Hagree; [done|].
  destruct (decide (caller = tenantID)) as [->|Hne].
  - rewrite filter_cons_True by done. simpl.
    destruct (Allow_agree tenantID rl rl' now Hagree) as [Hok Hnext].
    destruct (Allow rl tenantID now) as [ok rl1].
    destruct (Allow rl' tenantID now) as [ok' rl1']. simpl in *. subst ok'.
    specialize (IH rl1 rl1' Hnext).
    destruct (answers_to tenantID rl1 rest) as [oks rl2].
    destruct (answers_to tenantID rl1' _) as [oks' rl2']. simpl in *.
    rewrite String.eqb_refl. simpl. destruct IH as [-> ?]. done.
  - rewrite filter_cons_False by done. simpl.
    pose proof (Allow_other_agree tenantID caller rl rl' now Hne Hagree) as Hnext.
    destruct (Allow rl caller now) as [ok rl1]. simpl in *.
    specialize (IH rl1 rl' Hnext).
    destruct (answers_to tenantID rl1 rest) as [oks rl2]. simpl in *.
    by destruct (String.eqb_spec caller tenantID).
Qed.

(** X17.  Tenants do not share tokens.  The answers a tenant gets from
    the limiter, and the tokens and the window it is left with, are those
    it would get if the calls of all other tenants had never been made. *)
Theorem rate_limit_per_tenant (tenantID : string) (rl : RateLimiter)
    (calls : list (string * Time)) :
  let '(oks, rl1) := answers_to tenantID rl calls in
  let '(oks', rl1') := answers_to tenantID rl (own_calls tenantID calls) in
  oks = oks'
  ∧ tokens_of rl1 tenantID = tokens_of rl1' tenantID
  ∧ tenantLastReset rl1 !! tenantID = tenantLastReset rl1' !! tenantID.
Proof.
  destruct (answers_agree tenantID calls rl rl (agree_on_refl _ _)) as [Hoks Hagree].
  destruct (answers_to tenantID rl calls) as [oks rl1].
  destruct (answers_to tenantID rl _) as [oks' rl1']. simpl in *.
  destruct Hagree as (Htok & Hlast & _). unfold tokens_of. by rewrite Htok.
Qed.

Lemma Allow_within_limit (rl : RateLimiter) (caller : string) (now : Time) :
  0 <= maxJobsPerMin rl →
  (∀ t, 0 <= tokens_of rl t <= maxJobsPerMin rl) →
  ∀ t, 0 <= tokens_of (snd (Allow rl caller now)) t <= maxJobsPerMin rl.
Proof.
  intros Hmax Hall t. unfold Allow.
  assert (Hreset : ∀ t, 0 <= tokens_of (reset rl caller now) t <= maxJobsPerMin rl).
  { intros t'. unfold tokens_of, reset; simpl.
    destruct (decide (caller = t')) as [->|Hne].
    - rewrite lookup_insert_eq. simpl. lia.
    - rewrite lookup_insert_ne by done. apply Hall. }
  assert (Hconsume : ∀ rl0, maxJobsPerMin rl0 = maxJobsPerMin rl →
            (∀ t, 0 <= tokens_of rl0 t <= maxJobsPerMin rl) →
            0 < tokens_of rl0 caller →
            0 <= tokens_of (consume rl0 caller) t <= maxJobsPerMin rl).
  { intros rl0 Hmax0 Hall0 Hpos.
    destruct (decide (caller = t)) as [->|Hne].
    - rewrite tokens_of_consume. specialize (Hall0 t). lia.
    - replace (tokens_of (consume rl0 caller) t) with (tokens_of rl0 t); [apply Hall0|].
      unfold tokens_of at 2, consume; simpl. by rewrite lookup_insert_ne. }
  destruct (must_reset rl caller now).
  - destruct (Z.ltb_spec 0 (tokens_of (reset rl caller now) caller)); simpl;
      [by apply Hconsume|apply Hreset].
  - destruct (Z.ltb_spec 0 (tokens_of rl caller)); simpl;
      [by apply Hconsume|apply Hall].
Qed.

(** X18.  Started with a limit that is not negative, the limiter keeps
    every tenant's tokens between 0 and the limit, whatever calls it
    serves; a tenant it has never seen counts as having 0.  Started with a
    limit of zero or less, it refuses every call. *)
Theorem tokens_within_limit (limit : Z) (tenantID : string)
    (calls : list (string * Time)) :
  let '(oks, rl) := answers_to tenantID (New limit) calls in
  maxJobsPerMin rl = limit
  ∧ (0 <= limit → ∀ t, 0 <= tokens_of rl t <= limit)
  ∧ (limit <= 0 → Forall (λ ok, ok = false) oks).
Proof.
  assert (Hgen : ∀ rl,
    let '(oks, rl') := answers_to tenantID rl calls in
    maxJobsPerMin rl' = maxJobsPerMin rl
    ∧ (0 <= maxJobsPerMin rl → (∀ t, 0 <= tokens_of rl t <= maxJobsPerMin rl) →
       ∀ t, 0 <= tokens_of rl' t <= maxJobsPerMin rl)
    ∧ (maxJobsPerMin rl <= 0 → (∀ t, tokens_of rl t <= 0) →
       Forall (λ ok, ok = false) oks)).
  { induction calls as [|[caller now] rest IH]; intros rl; simpl.
    { split; [done|]. split; [by intros|]. intros. constructor. }
    pose proof (Allow_maxJobsPerMin rl caller now) as Hmax1.
    pose proof (Allow_within_limit rl caller now) as Hin1.
    assert (Hrefuse : maxJobsPerMin rl <= 0 → (∀ t, tokens_of rl t <= 0) →
              fst (Allow rl caller now) = false
              ∧ ∀ t, tokens_of (snd (Allow rl caller now)) t <= 0).
    { intros Hmax Hall. unfold Allow.
      assert (Hreset : ∀ t, tokens_of (reset rl caller now) t <= 0).
      { intros t. unfold tokens_of, reset; simpl.
        destruct (decide (caller = t)) as [->|Hne].
        - rewrite lookup_insert_eq. simpl. lia.
        - rewrite lookup_insert_ne by done. apply Hall. }
      destruct (must_reset rl caller now).
      - destruct (Z.ltb_spec 0 (tokens_of (reset rl caller now) caller)); [|done].
        specialize (Hreset caller). lia.
      - destruct (Z.ltb_spec 0 (tokens_of rl caller)); [|done].
        specialize (Hall caller). lia. }
    destruct (Allow rl caller now) as [ok rl1]. simpl in *.
    specialize (IH rl1). destruct (answers_to tenantID rl1 rest) as [oks rl2].
    destruct IH as (Hmax2 & Hin2 & Hno2). rewrite Hmax1 in *.
    split; [done|]. split.
    - intros Hmax Hall. apply Hin2; [done|]. by apply Hin1.
    - intros Hmax Hall. destruct (Hrefuse Hmax Hall) as [-> Hall1].
      specialize (Hno2 Hmax Hall1). by case_match; [constructor|]. }
  specialize (Hgen (New limit)).
  destruct (answers_to tenantID (New limit) calls) as [oks rl]. simpl in Hgen.
  destruct Hgen as (Hmax & Hin & Hno). split; [done|]. split.
  - intros Hlimit. apply Hin; [done|]. intros t. unfold tokens_of. simpl.
    rewrite lookup_empty. simpl. lia.
  - intros Hlimit. apply Hno; [done|]. intros t. unfold tokens_of. simpl.
    by rewrite lookup_empty.
Qed.

End limiter.

(** ** The executor and the retry total *)

Section executor.
Existing Instance plain.

Lemma Unix_add_seconds (t k : Z) : Unix (t + k * Second) = Unix t + k.
Proof. unfold Unix. by rewrite Z.div_add. Qed.

Lemma executeJob_mod (job : Job) (t : Time) :
  executeJob job t = negb (Unix t mod 5 =? 0).
Proof.
  unfold executeJob. f_equal.
  destruct (Z.eqb_spec (Z.rem (Unix t) 5) 0) as [Hrem|Hrem];
    destruct (Z.eqb_spec (Unix t mod 5) 0) as [Hmod|Hmod]; try done.
  - apply Z.rem_divide in Hrem; [|done]. by apply Z.mod_divide in Hrem.
  - apply Z.mod_divide in Hmod; [|done]. by apply Z.rem_divide in Hmod.
Qed.

(** X19.  The outcome of [executeJob] is read off the clock alone: the
    call fails exactly when the Unix time after its sleep is a multiple of
    5 seconds, whatever the job.  Of any five consecutive seconds exactly
    one makes it fail, and the outcome repeats every five seconds. *)
Theorem executeJob_fails_one_second_in_five (job : Job) (t : Time) :
  (executeJob job t = false ↔ (5 | Unix t))
  ∧ (∀ job', executeJob job' t = executeJob job t)
  ∧ executeJob job (t + 5 * Second) = executeJob job t
  ∧ length (filter (λ k, executeJob job (t + k * Second) = false) [0; 1; 2; 3; 4])
    = 1%nat.
Proof.
  split; [|split; [|split]].
  - rewrite executeJob_mod, negb_false_iff, Z.eqb_eq. by rewrite Z.mod_divide.
  - done.
  - rewrite !executeJob_mod, Unix_add_seconds. f_equal. f_equal.
    rewrite <- (Z.mul_1_l 5) at 1. by rewrite Z.mod_add.
  - assert (Hk : ∀ k, executeJob job (t + k * Second)
                      = negb ((Unix t mod 5 + k) mod 5 =? 0)).
    { intros k. rewrite executeJob_mod, Unix_add_seconds. by rewrite Zplus_mod_idemp_l. }
    pose proof (Z.mod_pos_bound (Unix t) 5 ltac:(done)) as Hm.
    assert (Hcases : Unix t mod 5 = 0 ∨ Unix t mod 5 = 1 ∨ Unix t mod 5 = 2
                     ∨ Unix t mod 5 = 3 ∨ Unix t mod 5 = 4) by lia.
    rewrite !filter_cons, filter_nil. rewrite !Hk.
    destruct Hcases as [->|[->|[->|[->| ->]]]]; done.
Qed.

Lemma sum_retry_count_fits (db : DB) (acc : Z) :
  Forall (λ r, 0 <= retry_count r) db →
  0 <= acc →
  acc + retries_sum db <= maxInt64 →
  sum_retry_count acc db = Some (acc + retries_sum db).
Proof.
  intros Hall. revert acc. induction Hall as [|r rest Hr Hrest IH]; intros acc Hacc Hfit;
    simpl in *.
  - by rewrite Z.add_0_r.
  - assert (0 <= retries_sum rest).
    { clear -Hrest. induction Hrest; simpl; [done|lia]. }
    destruct (Z.ltb_spec (acc + retry_count r) minInt64);
      [unfold minInt64 in *; lia|].
    destruct (Z.ltb_spec maxInt64 (acc + retry_count r)); [lia|]. simpl.
    rewrite IH by lia. f_equal. lia.
Qed.

(** X20.  On a store whose retry counts are not negative and sum up
    within [int64], the [total_retries] of [GetMetrics] is the sum of the
    [retry_count] of all rows; on the empty store it is 0. *)
Theorem total_retries_is_sum (db : DB) :
  Forall (λ r, 0 <= retry_count r) db →
  retries_sum db <= maxInt64 →
  TotalRetries (GetMetrics db) = retries_sum db
  ∧ TotalRetries (GetMetrics []) = 0.
Proof.
  intros Hall Hfit. split; [|done]. simpl.
  by rewrite (sum_retry_count_fits db 0 Hall).
Qed.

Lemma total_retries_is_sum_witness :
  TotalRetries (GetMetrics (db (server (run_event (run init overtaken)
                     (Acknowledge 0 (50 * Second) (50 * Second)))))) = 1.
Proof.
  refine (proj1 (total_retries_is_sum _ _ _)).
  - repeat constructor. discriminate.
  - discriminate.
Defined.

End executor.

(** ** A lease is honoured *)

Section lease_honoured.
Existing Instance plain.

(** The older of two pending jobs is claimed at second 10 for 30 seconds;
    the claim that follows at second 20 takes the other job. *)
Lemma leased_job_not_claimed_again_witness :
  ID (leased_job (50 * Second) one_shot_row) ≠ ID (leased_job (40 * Second) default_row).
Proof.
  assert (Hpk : pk_unique [default_row; one_shot_row]).
  { unfold pk_unique. simpl. apply NoDup_cons. split; [|apply NoDup_singleton].
    intros Hin%list_elem_of_singleton. discriminate. }
  exact (leased_job_not_claimed_again [default_row; one_shot_row] _ _
           (40 * Second) (10 * Second) (50 * Second) (20 * Second) _ _
           Hpk eq_refl eq_refl ltac:(discriminate) eq_refl).
Defined.

End lease_honoured.
